(** * StdioTransport: a shallow embedding of src/mcp/StdioTransport.cpp

    The development follows the C++ translation unit top-down:
    - the parts of the C/C++ library the code relies on ([std::string::find],
      [substr], [erase], [isspace], [tolower], [std::to_string],
      [std::stoull]);
    - the [Impl] state of the transport, with the observable effects
      (handler calls, wake-ups, condition-variable notifications, promise
      fulfilment) recorded in the state;
    - the frame codec ([makeFrame], [extractFrame], [drainFrames]);
    - the bounded write queue ([enqueueFrame], [dequeueNextFrame],
      [accountWritten]);
    - message dispatch and request correlation ([processMessage],
      [handleResponse], the expiry sweep of [startTimeouts], [Close],
      [SendRequest]).
    Theorems come after the definitions. *)

From Stdlib Require Import NArith ZArith Ascii String List Lia Bool.
From stdpp Require Import base list gmap strings.

Local Open Scope nat_scope.

(** ** Bytes and the C/C++ library *)

(** [std::string] is a sequence of bytes. *)
Abbreviation bytes := (list ascii).

(** A string literal of the source. *)
Definition lit (s : string) : bytes := list_ascii_of_string s.

Definition CR : ascii := ascii_of_nat 13.
Definition LF : ascii := ascii_of_nat 10.
Definition DQUOTE : ascii := ascii_of_nat 34.

(** "\r\n" and the header separator "\r\n\r\n". *)
Definition crlf : bytes := [CR; LF].
Definition sep : bytes := [CR; LF; CR; LF].

(** [std::size_t] and [unsigned long long] are 64 bits wide,
    [unsigned int] is 32 bits wide. *)
Definition SIZE_MAX : N := 18446744073709551615.
Definition ULLONG_MAX : N := 18446744073709551615.
Definition size_modulus : N := 18446744073709551616.
Definition uint_modulus : N := 4294967296.

(** Addition on [std::size_t], wrapping. *)
Definition size_add (a b : N) : N := ((a + b) mod size_modulus)%N.

(** [s.size()] as a [std::size_t]. *)
Definition size (s : bytes) : N := N.of_nat (length s).

(** [starts_with needle s]: [needle] occurs at the front of [s]. *)
Fixpoint starts_with (needle s : bytes) : bool :=
  match needle, s with
  | [], _ => true
  | _ :: _, [] => false
  | a :: needle', b :: s' => Ascii.eqb a b && starts_with needle' s'
  end.

(** First occurrence of [needle] in [s], whose head has index [i]. *)
Fixpoint find_at (needle s : bytes) (i : nat) : option nat :=
  if starts_with needle s then Some i
  else match s with
       | [] => None
       | _ :: s' => find_at needle s' (S i)
       end.

(** [buf.find(needle, pos)]; [None] is [std::string::npos]. *)
Definition find (buf needle : bytes) (pos : nat) : option nat :=
  if length buf <? pos then None else find_at needle (drop pos buf) pos.

(** [buf.substr(pos, n)], for [pos <= buf.size()]. *)
Definition substr (buf : bytes) (pos n : nat) : bytes := take n (drop pos buf).

(** [buf.erase(0, n)]. *)
Definition erase (buf : bytes) (n : nat) : bytes := drop n buf.

(** [empty()] on a string or a deque. *)
Definition is_empty {A : Type} (q : list A) : bool :=
  match q with [] => true | _ :: _ => false end.

(** [std::isspace] in the C locale. *)
Definition isspace (c : ascii) : bool :=
  let n := nat_of_ascii c in (n =? 32) || ((9 <=? n) && (n <=? 13)).

(** [std::tolower] in the C locale. *)
Definition tolower (c : ascii) : ascii :=
  let n := nat_of_ascii c in
  if (65 <=? n) && (n <=? 90) then ascii_of_nat (n + 32) else c.

(** [value.erase(value.begin(), find_if(..., !isspace))]. *)
Fixpoint ltrim (s : bytes) : bytes :=
  match s with
  | c :: s' => if isspace c then ltrim s' else s
  | [] => []
  end.

(** [operator==] on strings. *)
Fixpoint bytes_eqb (a b : bytes) : bool :=
  match a, b with
  | [], [] => true
  | x :: a', y :: b' => Ascii.eqb x y && bytes_eqb a' b'
  | _, _ => false
  end.

(** *** Decimal output: [std::to_string] *)

Definition digit_char (d : N) : ascii := ascii_of_N (48 + d).

(** Decimal digits of [n], most significant first.  [fuel] bounds the number
    of digits. *)
Fixpoint digits (fuel : nat) (n : N) : bytes :=
  match fuel with
  | O => []
  | S fuel' =>
      if (n <? 10)%N then [digit_char n]
      else digits fuel' (n / 10)%N ++ [digit_char (n mod 10)%N]
  end.

(** [std::to_string] on an unsigned argument of at most 64 bits, which has at
    most 20 decimal digits. *)
Definition to_string (n : N) : bytes := digits 20 n.

(** [std::to_string] on an [int64_t]. *)
Definition to_string_int (z : Z) : bytes :=
  if (z <? 0)%Z then lit "-" ++ to_string (Z.to_N (- z)) else to_string (Z.to_N z).

(** *** Decimal input: [std::stoull] *)

Definition digit_val (c : ascii) : option N :=
  let n := N_of_ascii c in
  if (48 <=? n)%N && (n <=? 57)%N then Some (n - 48)%N else None.

(** The longest digit prefix of [s], accumulated onto [acc]; the flag tells
    whether any digit was consumed. *)
Fixpoint parse_digits (s : bytes) (acc : N) (any : bool) : N * bool :=
  match s with
  | c :: s' =>
      match digit_val c with
      | Some d => parse_digits s' (acc * 10 + d)%N true
      | None => (acc, any)
      end
  | [] => (acc, any)
  end.

(** [std::stoull(s)] (base 10): skips leading white space, takes an optional
    sign, then the longest run of digits.  [None] stands for both exceptions:
    [std::invalid_argument] (no digit) and [std::out_of_range] (the digits
    denote more than [ULLONG_MAX]).  A minus sign negates the value in the
    unsigned type, as [strtoull] does. *)
Definition stoull (s : bytes) : option N :=
  let s1 := ltrim s in
  let '(neg, s2) :=
    match s1 with
    | c :: t =>
        if Ascii.eqb c "-"%char then (true, t)
        else if Ascii.eqb c "+"%char then (false, t)
        else (false, s1)
    | [] => (false, s1)
    end in
  let '(v, any) := parse_digits s2 0%N false in
  if negb any then None
  else if (ULLONG_MAX <? v)%N then None
  else Some (if neg then ((size_modulus - v) mod size_modulus)%N else v).

(** ** JSON-RPC envelopes (mcp/JSONRPCTypes.h is not part of this unit) *)

(** Modelled from the spec: the request id of mcp/JSONRPCTypes.h, a variant
    that holds a string or a signed 64-bit integer; the visitors of
    [handleResponse] and [SendRequest] leave the key empty for any other
    alternative, which [IdNull] stands for. *)
Inductive JSONRPCId :=
| IdString (s : bytes)
| IdInt (i : Z)
| IdNull.

(** Modelled from the spec: the error object built by [CreateErrorObject]:
    an error code and a message. *)
Record JSONRPCError := { err_code : Z; err_message : bytes }.

(** Modelled from the spec: [JSONRPCErrorCodes::InternalError], the JSON-RPC
    code -32603. *)
Definition InternalError : Z := (-32603)%Z.

(** [CreateErrorObject(code, message, std::nullopt)] *)
Definition CreateErrorObject (code : Z) (msg : bytes) : JSONRPCError :=
  {| err_code := code; err_message := msg |}.

(** Modelled from the spec: a response envelope has an id and a result or an
    error; a request envelope has an id, a method and opaque parameters. *)
Record JSONRPCResponse := {
  resp_id : JSONRPCId;
  resp_result : option bytes;
  resp_error : option JSONRPCError
}.

Record JSONRPCRequest := {
  req_id : JSONRPCId;
  req_method : bytes;
  req_params : bytes
}.

(** ** The transport state *)

(** Effects that leave the object, in program order. *)
Inductive Event :=
| ErrorHandlerCall (msg : bytes)          (* errorHandler(msg) *)
| NotificationHandlerCall (msg : bytes)   (* notificationHandler(...) *)
| RequestHandlerThread (req : JSONRPCRequest) (* std::thread(...).detach() *)
| WakeSignal                              (* SetEvent / eventfd / self-pipe write *)
| NotifyWriteAll                          (* cvWrite.notify_all() *)
| NotifyWriteOne                          (* cvWrite.notify_one() *)
| NotifyTimeoutAll.                       (* cvTimeout.notify_all() *)

(** How a promise received its value. *)
Inductive Cause := ByResponse | ByDeadline | ByClose.

(** [promise.set_value(resp)] on the promise numbered [ful_slot]. *)
Record Fulfilment := {
  ful_slot : nat;
  ful_cause : Cause;
  ful_value : JSONRPCResponse
}.

(** The members of [StdioTransport::Impl] the modelled functions use.  A
    [std::promise] is represented by the number of its shared state;
    [nextSlot], [fulfilled] and [abandoned] record which promises were
    created, which received a value and which were destroyed without one.
    The handlers are [std::function] objects of the embedding application:
    only whether they are set is part of the state, their calls are
    [events]. *)
Record Impl := mkImpl {
  connected : bool;
  errorHandler : bool;
  requestHandler : bool;
  notificationHandler : bool;
  wakeValid : bool;             (* stopEvent / wakeEventFd / wakePipe[1] usable *)
  pendingRequests : gmap bytes nat;
  requestDeadlines : gmap bytes Z;
  requestCounter : N;
  requestTimeout : Z;
  writeQueue : list bytes;
  queuedBytes : N;
  writeQueueMaxBytes : N;
  events : list Event;
  nextSlot : nat;
  fulfilled : list Fulfilment;
  abandoned : list nat
}.

Definition set_connected (b : bool) (st : Impl) : Impl :=
  mkImpl b (errorHandler st) (requestHandler st) (notificationHandler st)
    (wakeValid st) (pendingRequests st) (requestDeadlines st)
    (requestCounter st) (requestTimeout st) (writeQueue st) (queuedBytes st)
    (writeQueueMaxBytes st) (events st) (nextSlot st) (fulfilled st)
    (abandoned st).

Definition emit (e : Event) (st : Impl) : Impl :=
  mkImpl (connected st) (errorHandler st) (requestHandler st)
    (notificationHandler st) (wakeValid st) (pendingRequests st)
    (requestDeadlines st) (requestCounter st) (requestTimeout st)
    (writeQueue st) (queuedBytes st) (writeQueueMaxBytes st)
    (events st ++ [e]) (nextSlot st) (fulfilled st) (abandoned st).

Definition set_writeQueue (q : list bytes) (n : N) (st : Impl) : Impl :=
  mkImpl (connected st) (errorHandler st) (requestHandler st)
    (notificationHandler st) (wakeValid st) (pendingRequests st)
    (requestDeadlines st) (requestCounter st) (requestTimeout st)
    q n (writeQueueMaxBytes st) (events st) (nextSlot st) (fulfilled st)
    (abandoned st).

Definition set_requestCounter (c : N) (st : Impl) : Impl :=
  mkImpl (connected st) (errorHandler st) (requestHandler st)
    (notificationHandler st) (wakeValid st) (pendingRequests st)
    (requestDeadlines st) c (requestTimeout st) (writeQueue st)
    (queuedBytes st) (writeQueueMaxBytes st) (events st) (nextSlot st)
    (fulfilled st) (abandoned st).

Definition set_requests (p : gmap bytes nat) (d : gmap bytes Z) (st : Impl) : Impl :=
  mkImpl (connected st) (errorHandler st) (requestHandler st)
    (notificationHandler st) (wakeValid st) p d (requestCounter st)
    (requestTimeout st) (writeQueue st) (queuedBytes st)
    (writeQueueMaxBytes st) (events st) (nextSlot st) (fulfilled st)
    (abandoned st).

Definition set_promises (next : nat) (f : list Fulfilment) (a : list nat)
    (st : Impl) : Impl :=
  mkImpl (connected st) (errorHandler st) (requestHandler st)
    (notificationHandler st) (wakeValid st) (pendingRequests st)
    (requestDeadlines st) (requestCounter st) (requestTimeout st)
    (writeQueue st) (queuedBytes st) (writeQueueMaxBytes st) (events st)
    next f a.

(** [if (errorHandler) { errorHandler(msg); }] *)
Definition callErrorHandler (msg : bytes) (st : Impl) : Impl :=
  if errorHandler st then emit (ErrorHandlerCall msg) st else st.

(** The platform wake-up: [SetEvent(stopEvent)], a write to [wakeEventFd] or
    a write to [wakePipe[1]], each guarded by the validity of the handle. *)
Definition signalWakeup (st : Impl) : Impl :=
  if wakeValid st then emit WakeSignal st else st.

(** ** Frame codec *)

Definition MaxContentLength : N := 1048576.

(** [makeFrame]: the header line, the separator, the payload. *)
Definition makeFrame (payload : bytes) : bytes :=
  let header := lit "Content-Length: " ++ to_string (size payload) ++ sep in
  header ++ payload.

(** What one header line contributes in the loop of [extractFrame]. *)
Inductive LineOutcome :=
| LineTooLarge (v64 : N)   (* the early return after "body too large" *)
| LineLength (v64 : N)     (* contentLength = v64; haveLength = true *)
| LineIgnored.             (* no colon, another header, or stoull threw *)

(** The body of the header loop of [extractFrame] for one [line]. *)
Definition headerLine (line : bytes) : LineOutcome :=
  match find line (lit ":") 0 with
  | None => LineIgnored
  | Some colon =>
      let name := map tolower (substr line 0 colon) in
      let value := ltrim (drop (colon + 1) line) in
      if bytes_eqb name (lit "content-length") then
        match stoull value with
        | Some v64 =>
            if (MaxContentLength <? v64)%N || (SIZE_MAX <? v64)%N
            then LineTooLarge v64
            else LineLength v64
        | None => LineIgnored
        end
      else LineIgnored
  end.

(** How the header loop ends. *)
Inductive ScanOutcome :=
| ScanTooLarge (v64 : N)
| ScanDone (contentLength : N) (haveLength : bool).

(** The loop [while (pos < headerEnd)] of [extractFrame].  Every iteration
    moves [pos] forward by at least two, so [S headerEnd] units of [fuel] are
    never used up (see [scanHeaders_fuel]). *)
Fixpoint scanHeaders (fuel : nat) (buf : bytes) (headerEnd pos : nat)
    (contentLength : N) (haveLength : bool) : ScanOutcome :=
  match fuel with
  | O => ScanDone contentLength haveLength
  | S fuel' =>
      if pos <? headerEnd then
        match find buf crlf pos with
        | None => ScanDone contentLength haveLength
        | Some eol =>
            if headerEnd <? eol then ScanDone contentLength haveLength
            else
              match headerLine (substr buf pos (eol - pos)) with
              | LineTooLarge v64 => ScanTooLarge v64
              | LineLength v64 =>
                  scanHeaders fuel' buf headerEnd (eol + 2) v64 true
              | LineIgnored =>
                  scanHeaders fuel' buf headerEnd (eol + 2) contentLength haveLength
              end
        end
      else ScanDone contentLength haveLength
  end.

(** [extractFrame(buf)]: the returned optional, the buffer afterwards and the
    state afterwards. *)
Definition extractFrame (st : Impl) (buf : bytes) : option bytes * bytes * Impl :=
  match find buf sep 0 with
  | None => (None, buf, st)
  | Some headerEnd =>
      match scanHeaders (S headerEnd) buf headerEnd 0 0%N false with
      | ScanTooLarge _ =>
          (None, erase buf (headerEnd + length sep),
           callErrorHandler (lit "StdioTransport: body too large") st)
      | ScanDone contentLength haveLength =>
          if negb haveLength then
            (None, erase buf (headerEnd + length sep), st)
          else
            let headerAndSep := N.of_nat (headerEnd + length sep) in
            if (SIZE_MAX - headerAndSep <? contentLength)%N then
              (None, erase buf (headerEnd + length sep), st)
            else
              let frameTotal := (headerAndSep + contentLength)%N in
              if (size buf <? frameTotal)%N then (None, buf, st)
              else
                (Some (substr buf (headerEnd + length sep) (N.to_nat contentLength)),
                 erase buf (N.to_nat frameTotal), st)
      end
  end.

(** *** [readFrame]: the stream-based reader of the same unit *)

(** [std::getline(in, line)] on a non-empty unread input: the line without
    its '\n', the input left unread, and whether the stream is still good
    (the '\n' was found before the end of the input). *)
Fixpoint getline (input : bytes) : bytes * bytes * bool :=
  match input with
  | [] => ([], [], false)
  | c :: input' =>
      if Ascii.eqb c LF then ([], input', true)
      else let '(line, rest, good) := getline input' in (c :: line, rest, good)
  end.

(** [if (!line.empty() && line.back() == '\r') { line.pop_back(); }] *)
Definition strip_cr (line : bytes) : bytes :=
  match last line with
  | Some c => if Ascii.eqb c CR then take (length line - 1) line else line
  | None => line
  end.

(** What one header line does in the loop of [readFrame]. *)
Inductive ReadLine :=
| ReadTooLarge     (* errorHandler("... body too large"); return std::nullopt *)
| ReadInvalid      (* stoull threw: return std::nullopt *)
| ReadLength (v64 : N)
| ReadOther.

Definition readFrameLine (line : bytes) : ReadLine :=
  match find line (lit ":") 0 with
  | None => ReadOther
  | Some colon =>
      let name := map tolower (substr line 0 colon) in
      let value := ltrim (drop (colon + 1) line) in
      if bytes_eqb name (lit "content-length") then
        match stoull value with
        | Some v64 =>
            if (MaxContentLength <? v64)%N || (SIZE_MAX <? v64)%N
            then ReadTooLarge else ReadLength v64
        | None => ReadInvalid
        end
      else ReadOther
  end.

(** How the header loop of [readFrame] ends: with a [return] inside the
    loop, or past the loop with the stream state and the length found. *)
Inductive ReadHeaders :=
| HeadersReturn (input : bytes) (st : Impl)
| HeadersDone (input : bytes) (good : bool) (contentLength : N) (haveLength : bool).

(** The loop [while (std::getline(in, line))] of [readFrame].  [good] is
    [in.good()]; a successful [getline] consumes at least one byte, so
    [S (length input)] units of [fuel] are never used up. *)
Fixpoint readHeaders (fuel : nat) (input : bytes) (good : bool)
    (contentLength : N) (haveLength : bool) (st : Impl) : ReadHeaders :=
  match fuel with
  | O => HeadersDone input good contentLength haveLength
  | S fuel' =>
      if negb good || is_empty input
      then HeadersDone input false contentLength haveLength
      else
        let '(line0, input', good') := getline input in
        let line := strip_cr line0 in
        if is_empty line then HeadersDone input' good' contentLength haveLength
        else
          match readFrameLine line with
          | ReadTooLarge =>
              HeadersReturn input'
                (callErrorHandler (lit "StdioTransport: body too large") st)
          | ReadInvalid => HeadersReturn input' st
          | ReadLength v64 => readHeaders fuel' input' good' v64 true st
          | ReadOther => readHeaders fuel' input' good' contentLength haveLength st
          end
  end.

(** [readFrame(in)] on the unread [input] of the stream: the returned
    optional, the input left unread and the state afterwards. *)
Definition readFrame (st : Impl) (input : bytes) : option bytes * bytes * Impl :=
  match readHeaders (S (length input)) input true 0%N false st with
  | HeadersReturn input' st' => (None, input', st')
  | HeadersDone input' good contentLength haveLength =>
      if negb good then (None, input', st)
      else if negb haveLength then (None, input', st)
      else if (MaxContentLength <? contentLength)%N then
        (None, input', callErrorHandler (lit "StdioTransport: body too large") st)
      else if (size input' <? contentLength)%N then (None, [], st)
      else (Some (take (N.to_nat contentLength) input'),
            drop (N.to_nat contentLength) input', st)
  end.

(** The loop of [drainFrames]; [process] is [processMessage].  A returned
    frame removes at least the four bytes of its separator from the buffer,
    so [S (length buffer)] units of [fuel] are never used up. *)
Fixpoint drainLoop (fuel : nat) (process : bytes -> Impl -> Impl)
    (buffer : bytes) (st : Impl) : bytes * Impl :=
  match fuel with
  | O => (buffer, st)
  | S fuel' =>
      if connected st then
        match extractFrame st buffer with
        | (Some framed, buffer', st') =>
            drainLoop fuel' process buffer' (process framed st')
        | (None, buffer', st') => (buffer', st')
        end
      else (buffer, st)
  end.

Definition drainFrames (process : bytes -> Impl -> Impl) (buffer : bytes)
    (st : Impl) : bytes * Impl :=
  drainLoop (S (length buffer)) process buffer st.

(** The data path of the read loops: [n > 0] bytes were read, they are
    appended to the buffer and the buffer is drained. *)
Definition onData (process : bytes -> Impl -> Impl) (chunk : bytes)
    (buffer : bytes) (st : Impl) : bytes * Impl :=
  drainFrames process (buffer ++ chunk) st.

(** The reader over a sequence of reads. *)
Fixpoint readChunks (process : bytes -> Impl -> Impl) (chunks : list bytes)
    (buffer : bytes) (st : Impl) : bytes * Impl :=
  match chunks with
  | [] => (buffer, st)
  | chunk :: chunks' =>
      let '(buffer', st') := onData process chunk buffer st in
      readChunks process chunks' buffer' st'
  end.

(** ** Bounded write queue *)

(** [enqueueFrame(payload)]: the returned flag and the state afterwards. *)
Definition enqueueFrame (payload : bytes) (st : Impl) : bool * Impl :=
  let frame := makeFrame payload in
  if (writeQueueMaxBytes st <? size_add (queuedBytes st) (size frame))%N then
    let st1 := callErrorHandler (lit "StdioTransport: write queue overflow") st in
    let st2 := set_connected false st1 in
    let st3 := signalWakeup st2 in
    (false, emit NotifyWriteAll st3)
  else
    let st1 :=
      set_writeQueue (writeQueue st ++ [frame])
        (size_add (queuedBytes st) (size frame)) st in
    (true, emit NotifyWriteOne st1).

(** [dequeueNextFrame(frame)].  [None]: the wait on [cvWrite] does not
    return (connected and nothing queued).  Otherwise the returned flag, the
    frame handed to the writer and the state afterwards. *)
Definition dequeueNextFrame (st : Impl) : option (bool * bytes * Impl) :=
  if negb (negb (connected st) || negb (is_empty (writeQueue st))) then None
  else if negb (connected st) && is_empty (writeQueue st) then Some (false, [], st)
  else
    match writeQueue st with
    | frame :: q => Some (true, frame, set_writeQueue q (queuedBytes st) st)
    | [] => Some (true, [], st)
    end.

(** [accountWritten(frameSize)] *)
Definition accountWritten (frameSize : N) (st : Impl) : Impl :=
  if (frameSize <=? queuedBytes st)%N
  then set_writeQueue (writeQueue st) (queuedBytes st - frameSize)%N st
  else set_writeQueue (writeQueue st) 0%N st.

(** ** Dispatch and correlation *)

(** The message codec of mcp/JSONRPCTypes.h, which this unit only calls:
    [JSONRPCRequest::Deserialize], [JSONRPCResponse::Deserialize] and
    [JSONRPCRequest::Serialize]. *)
Class JSONCodec := {
  DeserializeRequest : bytes -> option JSONRPCRequest;
  DeserializeResponse : bytes -> option JSONRPCResponse;
  SerializeRequest : JSONRPCRequest -> bytes
}.

(** [message.find(token) != std::string::npos] *)
Definition contains (message token : bytes) : bool :=
  match find message token 0 with Some _ => true | None => false end.

(** [it->second.set_value(resp)] *)
Definition fulfil (slot : nat) (cause : Cause) (resp : JSONRPCResponse)
    (st : Impl) : Impl :=
  set_promises (nextSlot st)
    (fulfilled st ++ [{| ful_slot := slot; ful_cause := cause; ful_value := resp |}])
    (abandoned st) st.

(** The key of an id in the two maps: the [std::visit] of [handleResponse]
    and [SendRequest]. *)
Definition idKey (id : JSONRPCId) : bytes :=
  match id with
  | IdString s => s
  | IdInt i => to_string_int i
  | IdNull => []
  end.

(** [handleResponse(response)] *)
Definition handleResponse (response : JSONRPCResponse) (st : Impl) : Impl :=
  let idStr := idKey (resp_id response) in
  let st1 :=
    match pendingRequests st !! idStr with
    | Some slot =>
        set_requests (delete idStr (pendingRequests st)) (requestDeadlines st)
          (fulfil slot ByResponse response st)
    | None => st
    end in
  set_requests (pendingRequests st1) (delete idStr (requestDeadlines st1)) st1.

(** [handleNotification(notification)]; the notification is kept as the
    message it was parsed from. *)
Definition handleNotification (notification : bytes) (st : Impl) : Impl :=
  if notificationHandler st then emit (NotificationHandlerCall notification) st
  else st.

(** [processMessage(message)].  The request handler runs on a detached
    thread; the reader only starts it. *)
Definition processMessage `{JSONCodec} (message : bytes) (st : Impl) : Impl :=
  let asRequest :=
    if contains message ([DQUOTE] ++ lit "method" ++ [DQUOTE])
       && contains message ([DQUOTE] ++ lit "id" ++ [DQUOTE])
    then DeserializeRequest message else None in
  match asRequest, requestHandler st with
  | Some request, true => emit (RequestHandlerThread request) st
  | _, _ =>
      match DeserializeResponse message with
      | Some response => handleResponse response st
      | None => st
      end
  end.

Definition errorResponse (idStr : bytes) (msg : bytes) : JSONRPCResponse :=
  {| resp_id := IdString idStr;
     resp_result := None;
     resp_error := Some (CreateErrorObject InternalError msg) |}.

(** The body of the loop over [expired] in [startTimeouts]. *)
Definition expireOne (st : Impl) (idStr : bytes) : Impl :=
  let st1 :=
    match pendingRequests st !! idStr with
    | Some slot =>
        set_requests (delete idStr (pendingRequests st)) (requestDeadlines st)
          (fulfil slot ByDeadline (errorResponse idStr (lit "Request timeout")) st)
    | None => st
    end in
  set_requests (pendingRequests st1) (delete idStr (requestDeadlines st1)) st1.

(** "Consume expired" in [startTimeouts], at time [now]. *)
Definition consumeExpired (now : Z) (st : Impl) : Impl :=
  let expired :=
    map fst (List.filter (fun kv => (snd kv <=? now)%Z)
               (map_to_list (requestDeadlines st))) in
  foldl expireOne st expired.

(** One round of the timeout thread that wakes at [now]: the sweep runs
    unless the wait ended with [!connected]. *)
Definition timeoutRound (now : Z) (st : Impl) : Impl :=
  if connected st then consumeExpired now st else st.

(** The final block of [Close]: every pending promise receives
    "Transport closed", then both maps are cleared. *)
Definition failPending (st : Impl) : Impl :=
  let st1 :=
    foldl (fun s kv => fulfil (snd kv) ByClose
                         (errorResponse (fst kv) (lit "Transport closed")) s)
      st (map_to_list (pendingRequests st)) in
  set_requests ∅ ∅ st1.

(** [Start]: the three worker threads are the interleaved operations of
    [step] below. *)
Definition Start (st : Impl) : Impl := set_connected true st.

(** [Close].  Joining or detaching the workers is thread management and is
    not part of the state. *)
Definition Close (st : Impl) : Impl :=
  let st1 := set_connected false st in
  let st2 := emit NotifyTimeoutAll st1 in
  let st3 := signalWakeup st2 in
  let st4 := failPending st3 in
  emit NotifyTimeoutAll st4.

(** [generateRequestId]: [++requestCounter] on an [unsigned int]. *)
Definition generateRequestId (st : Impl) : bytes * Impl :=
  let c := ((requestCounter st + 1) mod uint_modulus)%N in
  (lit "req-" ++ to_string c, set_requestCounter c st).

(** What [SendRequest] returns: a future that already holds a value, or the
    future of the promise stored in [pendingRequests]. *)
Inductive Future :=
| FutureReady (resp : JSONRPCResponse)
| FuturePending (slot : nat).

Definition with_id (request : JSONRPCRequest) (id : bytes) : JSONRPCRequest :=
  {| req_id := IdString id; req_method := req_method request;
     req_params := req_params request |}.

(** [pendingRequests[requestId] = std::move(promise)]: move-assignment onto
    an existing entry destroys the promise stored there. *)
Definition storePromise (requestId : bytes) (deadline : Z) (st : Impl) : nat * Impl :=
  let slot := nextSlot st in
  let abandoned' :=
    match pendingRequests st !! requestId with
    | Some old => abandoned st ++ [old]
    | None => abandoned st
    end in
  let st1 := set_promises (S slot) (fulfilled st) abandoned' st in
  (slot,
   set_requests (<[requestId := slot]> (pendingRequests st1))
     (<[requestId := deadline]> (requestDeadlines st1)) st1).

(** The id under which [SendRequest] files the request: the caller's id if
    it is a non-empty string or an integer, a generated one otherwise (which
    is also written into the request). *)
Definition assignId (request : JSONRPCRequest) (st : Impl)
    : bytes * JSONRPCRequest * Impl :=
  let callerId :=
    match req_id request with
    | IdString s => if negb (is_empty s) then Some s else None
    | IdInt i => Some (to_string_int i)
    | IdNull => None
    end in
  match callerId with
  | Some requestId => (requestId, request, st)
  | None =>
      let '(requestId, st') := generateRequestId st in
      (requestId, with_id request requestId, st')
  end.

(** [StdioTransport::SendRequest(request)], called at time [now]. *)
Definition SendRequest `{JSONCodec} (request : JSONRPCRequest) (now : Z)
    (st : Impl) : Future * Impl :=
  if negb (connected st) then
    let '(id, st1) := generateRequestId st in
    (FutureReady (errorResponse id (lit "Transport not connected")), st1)
  else
    let '(requestId, request1, st1) := assignId request st in
    let '(slot, st2) := storePromise requestId (now + requestTimeout st1)%Z st1 in
    let st3 := emit NotifyTimeoutAll st2 in
    let serialized := SerializeRequest request1 in
    let '(_, st4) := enqueueFrame serialized st3 in
    (FuturePending slot, st4).

(** ** The transport as a transition system

    The mutexes make each of the operations below atomic on the state they
    guard; the threads of the transport interleave them. *)

(** The writer thread keeps the frame it dequeued in a local variable until
    [accountWritten] has run. *)
Record System := mkSystem {
  impl : Impl;
  writerFrame : option bytes
}.

Inductive Op :=
| OpSendRequest (request : JSONRPCRequest) (now : Z) (* a caller of SendRequest *)
| OpEnqueue (payload : bytes)      (* SendNotification, or a handler thread replying *)
| OpMessage (message : bytes)      (* the reader hands a frame to processMessage *)
| OpTimeout (now : Z)              (* the timeout thread wakes *)
| OpWriterDequeue                  (* the writer calls dequeueNextFrame *)
| OpWriterAccount                  (* the writer is done with its frame *)
| OpDisconnect                     (* a worker sets connected = false on an I/O error *)
| OpClose.                         (* a caller of Close *)

(** The frame about to be queued and the frames already accounted for are
    all in memory, so their sizes add up to less than [2^64]. *)
Definition fits (payload : bytes) (st : Impl) : bool :=
  (queuedBytes st + size (makeFrame payload) <? size_modulus)%N.

(** The payload [SendRequest] serializes in state [st]. *)
Definition requestPayload `{JSONCodec} (request : JSONRPCRequest) (st : Impl) : bytes :=
  SerializeRequest (snd (fst (assignId request st))).

(** One operation; [None] when it cannot take place in this state.  The
    writer may reach [dequeueNextFrame] after another thread cleared
    [connected], so its dequeue is not tied to the flag here. *)
Definition step `{JSONCodec} (op : Op) (s : System) : option System :=
  match op with
  | OpSendRequest request now =>
      if negb (connected (impl s)) || fits (requestPayload request (impl s)) (impl s)
      then Some (mkSystem (snd (SendRequest request now (impl s))) (writerFrame s))
      else None
  | OpEnqueue payload =>
      if fits payload (impl s)
      then Some (mkSystem (snd (enqueueFrame payload (impl s))) (writerFrame s))
      else None
  | OpMessage message =>
      Some (mkSystem (processMessage message (impl s)) (writerFrame s))
  | OpTimeout now =>
      Some (mkSystem (timeoutRound now (impl s)) (writerFrame s))
  | OpWriterDequeue =>
      match writerFrame s with
      | Some _ => None
      | None =>
          match dequeueNextFrame (impl s) with
          | Some (true, frame, st') =>
              Some (mkSystem st' (if is_empty frame then None else Some frame))
          | _ => None
          end
      end
  | OpWriterAccount =>
      match writerFrame s with
      | Some frame => Some (mkSystem (accountWritten (size frame) (impl s)) None)
      | None => None
      end
  | OpDisconnect => Some (mkSystem (set_connected false (impl s)) (writerFrame s))
  | OpClose => Some (mkSystem (Close (impl s)) (writerFrame s))
  end.

Fixpoint run `{JSONCodec} (ops : list Op) (s : System) : option System :=
  match ops with
  | [] => Some s
  | op :: ops' =>
      match step op s with
      | Some s' => run ops' s'
      | None => None
      end
  end.

(** A freshly constructed transport after [Start], with the given handlers
    and limits. *)
Definition started (errH reqH notH wake : bool) (timeout : Z) (cap : N) : System :=
  mkSystem (Start (mkImpl false errH reqH notH wake ∅ ∅ 0%N timeout [] 0%N cap [] 0 [] []))
    None.

(** Number of values the promise [slot] has received. *)
Definition fulfilments (slot : nat) (st : Impl) : nat :=
  length (List.filter (fun f => ful_slot f =? slot) (fulfilled st)).

(** [slot] is the promise stored under some key of [pendingRequests]. *)
Definition is_pending (slot : nat) (st : Impl) : Prop :=
  ∃ idStr, pendingRequests st !! idStr = Some slot.

(** Sum of the sizes of the frames of a queue. *)
Definition total_size (q : list bytes) : N :=
  foldr (fun frame acc => (size frame + acc)%N) 0%N q.

(** Header lines joined by "\r\n", as they stand in front of the separator. *)
Fixpoint join_lines (lines : list bytes) : bytes :=
  match lines with
  | [] => []
  | [l] => l
  | l :: ls => l ++ crlf ++ join_lines ls
  end.

(** The header loop of [extractFrame] told line by line. *)
Fixpoint foldLines (lines : list bytes) (contentLength : N) (haveLength : bool)
    : ScanOutcome :=
  match lines with
  | [] => ScanDone contentLength haveLength
  | l :: ls =>
      match headerLine l with
      | LineTooLarge v64 => ScanTooLarge v64
      | LineLength v64 => foldLines ls v64 true
      | LineIgnored => foldLines ls contentLength haveLength
      end
  end.

(** A line of a header region: not empty and without a carriage return. *)
Definition header_text (l : bytes) : Prop := l ≠ [] ∧ Forall (fun c => c ≠ CR) l.

(** The characters [std::to_string] produces. *)
Definition is_digit (c : ascii) : Prop := ∃ d, (d < 10)%N ∧ c = digit_char d.

(** The header line [makeFrame] writes. *)
Definition frameHeader (n : N) : bytes := lit "Content-Length: " ++ to_string n.

(** The byte stream of a sequence of payloads. *)
Definition frames (payloads : list bytes) : bytes := concat (map makeFrame payloads).

(** The buffer holds no complete frame of the stream [payloads] that is
    still to come. *)
Definition drained (buffer : bytes) (payloads : list bytes) : Prop :=
  match payloads with
  | [] => True
  | p :: _ => length buffer < length (makeFrame p)
  end.

(** [processMessage] applied to the payloads in order. *)
Definition deliver (process : bytes -> Impl -> Impl) (st : Impl)
    (payloads : list bytes) : Impl :=
  foldl (fun s p => process p s) st payloads.

(** ** States and codecs for examples *)

(** A started transport with all handlers set, a working wake-up handle and
    the default limits. *)
Definition fresh : Impl := impl (started true true true true 30000%Z 2097152%N).

(** The same with room for 30 bytes in the write queue. *)
Definition tight : Impl := impl (started true true true true 30000%Z 30%N).

(** A [process] that only records the payload it was given. *)
Definition record_payload (payload : bytes) (st : Impl) : Impl :=
  emit (NotificationHandlerCall payload) st.

(** Requests for examples. *)
Definition request_a : JSONRPCRequest :=
  {| req_id := IdString (lit "a"); req_method := lit "ping"; req_params := [] |}.

Definition request_7 : JSONRPCRequest :=
  {| req_id := IdInt 7; req_method := lit "ping"; req_params := [] |}.

Definition request_unnamed : JSONRPCRequest :=
  {| req_id := IdNull; req_method := lit "ping"; req_params := [] |}.

(** A transport after [Close]. *)
Definition closed : Impl := Close fresh.

(** A stand-in for the JSON codec in examples: "R" followed by an id is a
    response with that id, "Q" followed by an id is a request. *)
Definition toyCodec : JSONCodec := {|
  DeserializeRequest m :=
    match m with
    | c :: id =>
        if Ascii.eqb c "Q"%char
        then Some {| req_id := IdString id; req_method := lit "m"; req_params := [] |}
        else None
    | [] => None
    end;
  DeserializeResponse m :=
    match m with
    | c :: id =>
        if Ascii.eqb c "R"%char
        then Some {| resp_id := IdString id; resp_result := Some []; resp_error := None |}
        else None
    | [] => None
    end;
  SerializeRequest r := lit "Q" ++ idKey (req_id r)
|}.

(** ** Invariants *)

(** The part of the state request correlation works on. *)
Definition corr (st : Impl)
    : gmap bytes nat * gmap bytes Z * nat * list Fulfilment * list nat :=
  (pendingRequests st, requestDeadlines st, nextSlot st, fulfilled st, abandoned st).

(** The part of the state the write queue works on. *)
Definition qstate (st : Impl) : list bytes * N * N :=
  (writeQueue st, queuedBytes st, writeQueueMaxBytes st).

(** The life of one promise: stored in [pendingRequests] and without a
    value, or removed with exactly one value, or destroyed without a value;
    a promise that was never created is none of these. *)
Definition slot_state (st : Impl) (slot : nat) : Prop :=
  if slot <? nextSlot st then
    (is_pending slot st ∧ fulfilments slot st = 0 ∧ slot ∉ abandoned st)
    ∨ (¬ is_pending slot st ∧ fulfilments slot st = 1 ∧ slot ∉ abandoned st)
    ∨ (¬ is_pending slot st ∧ fulfilments slot st = 0 ∧ slot ∈ abandoned st)
  else ¬ is_pending slot st ∧ fulfilments slot st = 0 ∧ slot ∉ abandoned st.

Record correlation_inv (st : Impl) : Prop := {
  inv_dom : dom (pendingRequests st) = dom (requestDeadlines st);
  inv_inj : ∀ id1 id2 slot,
      pendingRequests st !! id1 = Some slot →
      pendingRequests st !! id2 = Some slot → id1 = id2;
  inv_slots : ∀ slot, slot_state st slot
}.

(** Completing the request filed under [idStr]: what [handleResponse] and
    the expiry loop of [startTimeouts] both do under [requestMutex]. *)
Definition complete (idStr : bytes) (cause : Cause) (resp : JSONRPCResponse)
    (st : Impl) : Impl :=
  let st1 :=
    match pendingRequests st !! idStr with
    | Some slot =>
        set_requests (delete idStr (pendingRequests st)) (requestDeadlines st)
          (fulfil slot cause resp st)
    | None => st
    end in
  set_requests (pendingRequests st1) (delete idStr (requestDeadlines st1)) st1.

(** The value [Close] gives to the promise of an entry of [pendingRequests]. *)
Definition closed_fulfilment (kv : bytes * nat) : Fulfilment :=
  {| ful_slot := kv.2; ful_cause := ByClose;
     ful_value := errorResponse kv.1 (lit "Transport closed") |}.

(** [op] is a [SendRequest] on a connected transport whose id is the key of
    a request that is still pending. *)
Definition reuses_pending_id (op : Op) (s : System) : bool :=
  match op with
  | OpSendRequest request _ =>
      connected (impl s)
      && bool_decide (is_Some (pendingRequests (impl s) !! (assignId request (impl s)).1.1))
  | _ => false
  end.

(** No operation of the run reuses the id of a pending request. *)
Fixpoint no_id_reuse `{JSONCodec} (ops : list Op) (s : System) : bool :=
  match ops with
  | [] => true
  | op :: ops' =>
      negb (reuses_pending_id op s)
      && match step op s with
         | Some s' => no_id_reuse ops' s'
         | None => true
         end
  end.

(** The bytes accounted for: the queued frames and the frame the writer is
    working on. *)
Definition accounted (s : System) : N :=
  (total_size (writeQueue (impl s))
   + match writerFrame s with Some frame => size frame | None => 0 end)%N.

Definition queue_inv (cap : N) (s : System) : Prop :=
  writeQueueMaxBytes (impl s) = cap
  ∧ queuedBytes (impl s) = accounted s
  ∧ (queuedBytes (impl s) ≤ cap)%N.

(** ** The rest of the unit *)

(** *** Notifications and request-handler threads *)

(** [StdioTransport::SendNotification]; [serialized] is what
    [notification->Serialize()] returns.  The future it returns is ready in
    every case. *)
Definition SendNotification (serialized : bytes) (st : Impl) : Impl :=
  if negb (connected st) then st else (enqueueFrame serialized st).2.

(** What the request handler did on the thread [processMessage] started. *)
Inductive HandlerOutcome :=
| HandlerReturned (resp : option JSONRPCResponse)  (* [None]: a null pointer *)
| HandlerThrew (what : bytes).                     (* a [std::exception] *)

(** The response the handler thread serializes: [resp->id = req.id] in every
    branch. *)
Definition handlerResponse (req : JSONRPCRequest) (outcome : HandlerOutcome)
    : JSONRPCResponse :=
  match outcome with
  | HandlerReturned (Some resp) =>
      {| resp_id := req_id req; resp_result := resp_result resp;
         resp_error := resp_error resp |}
  | HandlerReturned None =>
      {| resp_id := req_id req; resp_result := None;
         resp_error :=
           Some (CreateErrorObject InternalError (lit "Null response from handler")) |}
  | HandlerThrew what =>
      {| resp_id := req_id req; resp_result := None;
         resp_error := Some (CreateErrorObject InternalError what) |}
  end.

(** The body of the thread started by [processMessage];
    [serializeResponse] is [JSONRPCResponse::Serialize]. *)
Definition requestThread (serializeResponse : JSONRPCResponse -> bytes)
    (req : JSONRPCRequest) (outcome : HandlerOutcome) (st : Impl) : Impl :=
  (enqueueFrame (serializeResponse (handlerResponse req outcome)) st).2.

(** *** The timeout thread's next wake-up *)





(** *** One write of the writer thread (POSIX) *)







(** *** Construction, setters and the factory *)

(** The transport object: [Impl] and the two members of it that only the
    read and write loops use. *)
Record StdioTransport := mkTransport {
  pImpl : Impl;
  idleReadTimeout : Z;
  writeTimeout : Z
}.

Definition set_requestTimeout (timeout : Z) (st : Impl) : Impl :=
  mkImpl (connected st) (errorHandler st) (requestHandler st)
    (notificationHandler st) (wakeValid st) (pendingRequests st)
    (requestDeadlines st) (requestCounter st) timeout (writeQueue st)
    (queuedBytes st) (writeQueueMaxBytes st) (events st) (nextSlot st)
    (fulfilled st) (abandoned st).

Definition set_writeQueueMaxBytes (cap : N) (st : Impl) : Impl :=
  mkImpl (connected st) (errorHandler st) (requestHandler st)
    (notificationHandler st) (wakeValid st) (pendingRequests st)
    (requestDeadlines st) (requestCounter st) (requestTimeout st)
    (writeQueue st) (queuedBytes st) cap (events st) (nextSlot st)
    (fulfilled st) (abandoned st).

(** [std::chrono::milliseconds::max()] *)
Definition MS_MAX : Z := 9223372036854775807.

(** [std::chrono::milliseconds(v)] for a [uint64_t] [v]: the count is a
    signed 64-bit integer. *)
Definition milliseconds (v : N) : Z :=
  if (Z.of_N v <? 9223372036854775808)%Z then Z.of_N v
  else (Z.of_N v - 18446744073709551616)%Z.

(** The constructor of [Impl]: [env] is the value of
    MCP_STDIOTRANSPORT_TIMEOUT_MS ("" when unset), [wake] tells whether the
    wake-up handle could be created.  The session id is random and not part
    of the state. *)
Definition newImpl (wake : bool) (env : bytes) : Impl :=
  let requestTimeout :=
    if negb (is_empty env) then
      match stoull env with
      | Some v => milliseconds v
      | None => 30000%Z
      end
    else 30000%Z in
  mkImpl false false false false wake ∅ ∅ 0%N requestTimeout [] 0%N 2097152%N
    [] 0 [] [].

Definition newTransport (wake : bool) (env : bytes) : StdioTransport :=
  mkTransport (newImpl wake env) 0%Z 0%Z.

Definition SetRequestTimeoutMs (timeoutMs : N) (t : StdioTransport) : StdioTransport :=
  mkTransport
    (set_requestTimeout (if (timeoutMs =? 0)%N then MS_MAX else milliseconds timeoutMs)
       (pImpl t))
    (idleReadTimeout t) (writeTimeout t).

Definition SetIdleReadTimeoutMs (timeoutMs : N) (t : StdioTransport) : StdioTransport :=
  mkTransport (pImpl t)
    (if (timeoutMs =? 0)%N then 0%Z else milliseconds timeoutMs) (writeTimeout t).

Definition SetWriteQueueMaxBytes (maxBytes : N) (t : StdioTransport) : StdioTransport :=
  mkTransport
    (set_writeQueueMaxBytes (if (maxBytes =? 0)%N then 1%N else maxBytes) (pImpl t))
    (idleReadTimeout t) (writeTimeout t).

Definition SetWriteTimeoutMs (timeoutMs : N) (t : StdioTransport) : StdioTransport :=
  mkTransport (pImpl t) (idleReadTimeout t)
    (if (timeoutMs =? 0)%N then 0%Z else milliseconds timeoutMs).

Definition TAB : ascii := ascii_of_nat 9.

(** [config[i] == ';' || config[i] == ' ' || config[i] == '\t'] *)
Definition is_separator (c : ascii) : bool :=
  Ascii.eqb c ";"%char || Ascii.eqb c " "%char || Ascii.eqb c TAB.

(** The body of the token loop of [CreateTransport] for one [token]. *)
Definition applySetting (token : bytes) (t : StdioTransport) : StdioTransport :=
  match find token (lit "=") 0 with
  | None => t
  | Some eq =>
      let key := substr token 0 eq in
      let val := drop (eq + 1) token in
      if bytes_eqb key (lit "timeout_ms") then
        match stoull val with Some v => SetRequestTimeoutMs v t | None => t end
      else if bytes_eqb key (lit "idle_read_timeout_ms") then
        match stoull val with Some v => SetIdleReadTimeoutMs v t | None => t end
      else if bytes_eqb key (lit "write_timeout_ms") then
        match stoull val with Some v => SetWriteTimeoutMs v t | None => t end
      else if bytes_eqb key (lit "write_queue_max_bytes") then
        match stoull val with Some v => SetWriteQueueMaxBytes v t | None => t end
      else t
  end.

(** "Skip separators and spaces": the config from index [i] on, after the
    first inner loop. *)
Fixpoint skipSeparators (config : bytes) : bytes :=
  match config with
  | c :: config' => if is_separator c then skipSeparators config' else config
  | [] => []
  end.

(** The second inner loop: the token that starts at [i] and the config
    after it. *)
Fixpoint takeToken (config : bytes) : bytes * bytes :=
  match config with
  | c :: config' =>
      if is_separator c then ([], config)
      else let '(token, rest) := takeToken config' in (c :: token, rest)
  | [] => ([], [])
  end.

(** The loop [for (i = 0; i < config.size();)] of [CreateTransport] on the
    config from index [i] on.  Each round consumes a token of at least one
    byte, so [S (length config)] units of [fuel] are never used up. *)
Fixpoint parseConfig (fuel : nat) (config : bytes) (t : StdioTransport)
    : StdioTransport :=
  match fuel with
  | O => t
  | S fuel' =>
      if is_empty config then t
      else
        let config1 := skipSeparators config in
        if is_empty config1 then t
        else
          let '(token, rest) := takeToken config1 in
          parseConfig fuel' rest (applySetting token t)
  end.

(** [StdioTransportFactory::CreateTransport(config)] *)
Definition CreateTransport (wake : bool) (env config : bytes) : StdioTransport :=
  parseConfig (S (length config)) config (newTransport wake env).

(** *** Notions used in the statements below *)

(** A token of a config: not empty and without a separator. *)
Definition config_token (token : bytes) : Prop :=
  token ≠ [] ∧ Forall (fun c => is_separator c = false) token.

(** A run of separators. *)
Definition separators (ws : bytes) : Prop := Forall (fun c => is_separator c = true) ws.

(** Where a token ends: at the end of the config or in front of a
    separator. *)
Definition stops (rest : bytes) : Prop :=
  match rest with [] => True | c :: _ => is_separator c = true end.

(** A config written as tokens with separators in between. *)
Definition config_text (lead first : bytes) (more : list (bytes * bytes))
    (trail : bytes) : bytes :=
  lead ++ first ++ concat (map (fun p => fst p ++ snd p) more) ++ trail.

(** Spaces and tabs in front of a header value. *)
Definition blanks (ws : bytes) : Prop :=
  Forall (fun c => isspace c = true ∧ c ≠ CR) ws.

(** A line end as [readFrame] takes it: "\n" or "\r\n". *)
Definition line_end (eol : bytes) : Prop := eol = [LF] ∨ eol = crlf.

(** The writer's side of the queue: dequeue a frame and account for it. *)
Fixpoint takeFrames (n : nat) (st : Impl) : list bytes * Impl :=
  match n with
  | O => ([], st)
  | S n' =>
      match dequeueNextFrame st with
      | Some (true, frame, st1) =>
          let '(frames, st2) := takeFrames n' (accountWritten (size frame) st1) in
          (frame :: frames, st2)
      | _ => ([], st)
      end
  end.

(** Enqueue the payloads one after the other. *)
Definition enqueueAll (payloads : list bytes) (st : Impl) : Impl :=
  foldl (fun s p => (enqueueFrame p s).2) st payloads.

(** * Properties of the library model *)

Section Library.

Lemma starts_with_app (needle s : bytes) : starts_with needle (needle ++ s) = true.
Proof.
  induction needle as [|a needle IH]; simpl; [done|].
  by rewrite Ascii.eqb_refl, IH.
Qed.

Lemma starts_with_head (c : ascii) (needle s : bytes) (x : ascii) :
  x ≠ c → starts_with (c :: needle) (x :: s) = false.
Proof.
  intros Hx. simpl. destruct (Ascii.eqb c x) eqn:E; [|done].
  apply Ascii.eqb_eq in E. congruence.
Qed.

Lemma find_at_eq (needle s : bytes) (i : nat) :
  find_at needle s i =
  if starts_with needle s then Some i
  else match s with [] => None | _ :: s' => find_at needle s' (S i) end.
Proof. destruct s; reflexivity. Qed.

Lemma find_at_skip (c : ascii) (needle h s : bytes) (i : nat) :
  Forall (fun x => x ≠ c) h →
  find_at (c :: needle) (h ++ s) i = find_at (c :: needle) s (i + length h).
Proof.
  revert i. induction h as [|x h IH]; intros i Hh.
  - simpl. by rewrite Nat.add_0_r.
  - inversion Hh as [|? ? Hx Hh']; subst.
    change ((x :: h) ++ s) with (x :: (h ++ s)).
    rewrite find_at_eq, starts_with_head by done.
    rewrite IH by done. f_equal. simpl. lia.
Qed.

Lemma find_at_absent (c : ascii) (needle h : bytes) (i : nat) :
  Forall (fun x => x ≠ c) h → find_at (c :: needle) h i = None.
Proof.
  intros Hh. rewrite <- (app_nil_r h), find_at_skip by done. reflexivity.
Qed.

Lemma find_at_here (needle s : bytes) (i : nat) :
  find_at needle (needle ++ s) i = Some i.
Proof.
  by rewrite find_at_eq, starts_with_app.
Qed.

Lemma find_zero (buf needle : bytes) : find buf needle 0 = find_at needle buf 0.
Proof. unfold find. by rewrite drop_0. Qed.

Lemma find_after (pre s needle : bytes) :
  find (pre ++ s) needle (length pre) = find_at needle s (length pre).
Proof.
  unfold find. rewrite length_app.
  destruct (Nat.ltb_spec (length pre + length s) (length pre)); [lia|].
  by rewrite drop_app_length.
Qed.

(** *** Decimal digits *)

Lemma digit_cases (d : N) :
  (d < 10)%N →
  d = 0%N ∨ d = 1%N ∨ d = 2%N ∨ d = 3%N ∨ d = 4%N ∨ d = 5%N ∨ d = 6%N ∨
  d = 7%N ∨ d = 8%N ∨ d = 9%N.
Proof. lia. Qed.

Ltac digit_split H :=
  destruct (digit_cases _ H) as [->|[->|[->|[->|[->|[->|[->|[->|[->| ->]]]]]]]]].

Lemma digit_val_char (d : N) : (d < 10)%N → digit_val (digit_char d) = Some d.
Proof. intros H. digit_split H; reflexivity. Qed.

Lemma digit_char_not_space (d : N) : (d < 10)%N → isspace (digit_char d) = false.
Proof. intros H. digit_split H; reflexivity. Qed.

Lemma digit_char_not_CR (d : N) : (d < 10)%N → digit_char d ≠ CR.
Proof. intros H. digit_split H; discriminate. Qed.

Lemma digit_char_not_sign (d : N) :
  (d < 10)%N →
  Ascii.eqb (digit_char d) "-"%char = false ∧ Ascii.eqb (digit_char d) "+"%char = false.
Proof. intros H. digit_split H; split; reflexivity. Qed.

Lemma digits_are_digits (fuel : nat) (n : N) : Forall is_digit (digits fuel n).
Proof.
  revert n. induction fuel as [|fuel IH]; intros n; simpl; [constructor|].
  destruct (N.ltb_spec n 10).
  - repeat constructor. by exists n.
  - apply Forall_app; split; [apply IH|].
    repeat constructor. exists (n mod 10)%N. split; [|done].
    apply N.mod_lt. lia.
Qed.

Lemma digits_nonempty (fuel : nat) (n : N) : digits (S fuel) n ≠ [].
Proof.
  simpl. destruct (n <? 10)%N; [done|].
  intros H. apply app_eq_nil in H as [_ H]. discriminate.
Qed.

Lemma digits_length (fuel : nat) (n : N) : length (digits fuel n) ≤ fuel.
Proof.
  revert n. induction fuel as [|fuel IH]; intros n; simpl; [lia|].
  destruct (n <? 10)%N; simpl; [lia|].
  rewrite length_app. simpl. specialize (IH (n / 10)%N). lia.
Qed.

Lemma parse_digits_app (a b : bytes) (acc : N) (any : bool) :
  Forall is_digit a →
  parse_digits (a ++ b) acc any =
  parse_digits b (fst (parse_digits a acc any)) (snd (parse_digits a acc any)).
Proof.
  intros Ha. revert acc any. induction Ha as [|c a [d [Hd ->]] Ha IH]; intros acc any.
  - reflexivity.
  - simpl. rewrite digit_val_char by done. apply IH.
Qed.

Lemma parse_digits_digits (fuel : nat) (n : N) :
  (n < 10 ^ N.of_nat (S fuel))%N →
  parse_digits (digits (S fuel) n) 0%N false = (n, true).
Proof.
  revert n. induction fuel as [|fuel IH]; intros n Hn.
  - change (10 ^ N.of_nat 1)%N with 10%N in Hn.
    simpl. destruct (N.ltb_spec n 10) as [Hlt|Hge]; [|lia].
    simpl. by rewrite digit_val_char.
  - change (digits (S (S fuel)) n)
      with (if (n <? 10)%N then [digit_char n]
            else digits (S fuel) (n / 10)%N ++ [digit_char (n mod 10)%N]).
    destruct (N.ltb_spec n 10) as [Hlt|Hge].
    + simpl. by rewrite digit_val_char.
    + rewrite parse_digits_app by apply digits_are_digits.
      rewrite IH.
      * simpl. rewrite digit_val_char by (apply N.mod_lt; lia).
        f_equal. pose proof (N.div_mod n 10). lia.
      * rewrite Nat2N.inj_succ, N.pow_succ_r' in Hn.
        apply N.Div0.div_lt_upper_bound. lia.
Qed.

Lemma to_string_digits (n : N) : Forall is_digit (to_string n).
Proof. apply digits_are_digits. Qed.

Lemma is_digit_not_CR (s : bytes) : Forall is_digit s → Forall (fun c => c ≠ CR) s.
Proof.
  intros H. eapply Forall_impl; [exact H|].
  intros c [d [Hd ->]]. by apply digit_char_not_CR.
Qed.

(** [std::stoull] reads back what [std::to_string] wrote. *)
Lemma stoull_to_string (n : N) : (n ≤ ULLONG_MAX)%N → stoull (to_string n) = Some n.
Proof.
  intros Hn. unfold stoull, to_string.
  pose proof (digits_are_digits 20 n) as Hd.
  pose proof (digits_nonempty 19 n) as Hne.
  destruct (digits 20 n) as [|c t] eqn:E; [done|].
  inversion Hd as [|? ? [d [Hlt ->]] Ht]; subst.
  simpl ltrim. rewrite digit_char_not_space by done.
  destruct (digit_char_not_sign d Hlt) as [-> ->].
  rewrite <- E, (parse_digits_digits 19).
  - simpl. destruct (N.ltb_spec ULLONG_MAX n); [lia|done].
  - unfold ULLONG_MAX in Hn. change (10 ^ N.of_nat 20)%N with 100000000000000000000%N. lia.
Qed.

End Library.

(** * The frame codec *)

Section Codec.

Lemma join_lines_cons (l : bytes) (ls : list bytes) :
  join_lines (l :: ls) =
  l ++ match ls with [] => [] | _ :: _ => crlf ++ join_lines ls end.
Proof. destruct ls; simpl; [by rewrite app_nil_r|done]. Qed.

Lemma join_lines_length (lines : list bytes) :
  Forall header_text lines → length lines ≤ length (join_lines lines).
Proof.
  induction 1 as [|l ls [Hne _] _ IH]; [done|].
  rewrite join_lines_cons, length_app.
  assert (0 < length l) by (destruct l; [done|simpl; lia]).
  destruct ls; simpl in *; lia.
Qed.

Lemma starts_with_sep_line (x : ascii) (t : bytes) :
  x ≠ CR → starts_with sep (CR :: LF :: x :: t) = false.
Proof.
  intros Hx. unfold sep. cbn [starts_with].
  rewrite !Ascii.eqb_refl. cbn [andb].
  destruct (Ascii.eqb CR x) eqn:E; [|done].
  apply Ascii.eqb_eq in E. congruence.
Qed.

(** The separator is found right after the header lines. *)
Lemma find_sep_join (lines : list bytes) (rest : bytes) (i : nat) :
  Forall header_text lines →
  find_at sep (join_lines lines ++ sep ++ rest) i = Some (i + length (join_lines lines)).
Proof.
  intros H. revert i. induction H as [|l ls [Hne Hcr] Hls IH]; intros i.
  - simpl join_lines. rewrite app_nil_l, find_at_here. f_equal. simpl. lia.
  - rewrite join_lines_cons, <- app_assoc.
    unfold sep at 1. rewrite find_at_skip by done. fold sep.
    destruct ls as [|l2 ls'].
    + rewrite app_nil_l, find_at_here, length_app. f_equal. simpl. lia.
    + inversion Hls as [|? ? [Hne2 Hcr2] _]; subst.
      specialize (IH (i + length l + 2)).
      rewrite join_lines_cons in IH |- *.
      destruct l2 as [|x l2']; [done|].
      inversion Hcr2 as [|? ? Hx _]; subst.
      remember (match ls' with [] => [] | _ :: _ => crlf ++ join_lines ls' end) as M.
      replace (((x :: l2') ++ M) ++ sep ++ rest) with (x :: (l2' ++ M ++ sep ++ rest)) in *
        by (simpl; by rewrite <- app_assoc).
      replace ((crlf ++ (x :: l2') ++ M) ++ sep ++ rest)
        with (CR :: LF :: x :: (l2' ++ M ++ sep ++ rest))
        by (simpl; by rewrite <- app_assoc).
      rewrite find_at_eq.
      rewrite starts_with_sep_line by done.
      rewrite find_at_eq.
      change (starts_with sep (LF :: ?t)) with false. cbv iota.
      replace (S (S (i + length l))) with (i + length l + 2) by lia.
      rewrite IH. f_equal. rewrite !length_app. simpl.
      rewrite ?length_app. simpl. lia.
Qed.

Lemma scanHeaders_past (fuel : nat) (buf : bytes) (headerEnd pos : nat)
    (cl : N) (hl : bool) :
  headerEnd ≤ pos → scanHeaders fuel buf headerEnd pos cl hl = ScanDone cl hl.
Proof.
  intros H. destruct fuel; simpl; [done|].
  destruct (Nat.ltb_spec pos headerEnd); [lia|done].
Qed.

(** On header lines as a peer writes them, the loop of [extractFrame] visits
    exactly these lines, in order. *)
Lemma scanHeaders_lines (lines : list bytes) :
  Forall header_text lines →
  ∀ (pre rest buf : bytes) (headerEnd fuel : nat) (cl : N) (hl : bool),
    buf = pre ++ join_lines lines ++ sep ++ rest →
    headerEnd = length pre + length (join_lines lines) →
    length lines < fuel →
    scanHeaders fuel buf headerEnd (length pre) cl hl = foldLines lines cl hl.
Proof.
  induction 1 as [|l ls [Hne Hcr] Hls IH]; intros pre rest buf headerEnd fuel cl hl -> -> Hfuel.
  - simpl. rewrite Nat.add_0_r. by apply scanHeaders_past.
  - destruct fuel as [|fuel]; [simpl in Hfuel; lia|].
    assert (0 < length l) by (destruct l; [done|simpl; lia]).
    rewrite join_lines_cons, length_app.
    cbn [scanHeaders foldLines].
    destruct (Nat.ltb_spec (length pre) (length pre + (length l + length match ls with
      | [] => [] | _ :: _ => crlf ++ join_lines ls end))) as [_|?]; [|lia].
    rewrite find_after, <- app_assoc.
    unfold crlf at 1. rewrite find_at_skip by done. fold crlf.
    assert (find_at crlf (match ls with [] => [] | _ :: _ => crlf ++ join_lines ls end
                          ++ sep ++ rest) (length pre + length l)
            = Some (length pre + length l)) as ->.
    { destruct ls; [rewrite app_nil_l; change sep with (crlf ++ crlf)|];
        rewrite <- app_assoc; apply find_at_here. }
    destruct (Nat.ltb_spec (length pre + (length l + length match ls with
      | [] => [] | _ :: _ => crlf ++ join_lines ls end)) (length pre + length l)) as [?|_];
      [lia|].
    unfold substr. rewrite drop_app_length.
    replace (length pre + length l - length pre) with (length l) by lia.
    rewrite take_app_length.
    assert (∀ cl' hl',
      scanHeaders fuel
        (pre ++ l ++ match ls with [] => [] | _ :: _ => crlf ++ join_lines ls end
             ++ sep ++ rest)
        (length pre + (length l + length match ls with
           | [] => [] | _ :: _ => crlf ++ join_lines ls end))
        (length pre + length l + 2) cl' hl' = foldLines ls cl' hl') as Hrec.
    { intros cl' hl'. destruct ls as [|l2 ls'].
      - simpl. apply scanHeaders_past. lia.
      - replace (length pre + length l + 2) with (length (pre ++ l ++ crlf))
          by (rewrite !length_app; simpl; lia).
        apply (IH (pre ++ l ++ crlf) rest).
        + by rewrite <- !app_assoc.
        + rewrite !length_app. simpl. lia.
        + simpl in Hfuel |- *. lia. }
    destruct (headerLine l); [done|apply Hrec|apply Hrec].
Qed.

(** [extractFrame] on a buffer that starts with header lines and the
    separator. *)
Lemma extractFrame_lines (st : Impl) (lines : list bytes) (rest : bytes) :
  Forall header_text lines →
  extractFrame st (join_lines lines ++ sep ++ rest) =
  match foldLines lines 0%N false with
  | ScanTooLarge _ =>
      (None, rest, callErrorHandler (lit "StdioTransport: body too large") st)
  | ScanDone contentLength haveLength =>
      if negb haveLength then (None, rest, st)
      else
        let headerAndSep := N.of_nat (length (join_lines lines) + 4) in
        if (SIZE_MAX - headerAndSep <? contentLength)%N then (None, rest, st)
        else if (size rest <? contentLength)%N
             then (None, join_lines lines ++ sep ++ rest, st)
             else (Some (take (N.to_nat contentLength) rest),
                   drop (N.to_nat contentLength) rest, st)
  end.
Proof.
  intros Hlines. unfold extractFrame.
  rewrite find_zero, find_sep_join by done. simpl "+".
  rewrite (scanHeaders_lines lines Hlines [] rest); [|done|done|].
  2:{ pose proof (join_lines_length lines Hlines). lia. }
  change (length sep) with 4.
  assert (erase (join_lines lines ++ sep ++ rest) (length (join_lines lines) + 4)
          = rest) as Herase.
  { unfold erase. rewrite app_assoc.
    replace (length (join_lines lines) + 4)
      with (length (join_lines lines ++ sep)) by (by rewrite length_app).
    apply drop_app_length. }
  destruct (foldLines lines 0%N false) as [v|cl hl]; [by rewrite Herase|].
  destruct hl; simpl negb; cbv iota; [|by rewrite Herase].
  destruct (N.ltb_spec (SIZE_MAX - N.of_nat (length (join_lines lines) + 4)) cl) as [?|Hfit];
    [by rewrite Herase|].
  cbv zeta.
  assert (size (join_lines lines ++ sep ++ rest)
          = (N.of_nat (length (join_lines lines) + 4) + size rest)%N) as Hsize.
  { unfold size. rewrite !length_app. change (length sep) with 4. lia. }
  rewrite Hsize.
  destruct (N.ltb_spec (size rest) cl) as [Hshort|Hlong].
  - destruct (N.ltb_spec (N.of_nat (length (join_lines lines) + 4) + size rest)
                (N.of_nat (length (join_lines lines) + 4) + cl)); [done|lia].
  - destruct (N.ltb_spec (N.of_nat (length (join_lines lines) + 4) + size rest)
                (N.of_nat (length (join_lines lines) + 4) + cl)); [lia|].
    f_equal. f_equal.
    + f_equal. unfold substr. unfold erase in Herase. by rewrite Herase.
    + unfold erase.
      replace (N.to_nat (N.of_nat (length (join_lines lines) + 4) + cl))
        with (length (join_lines lines ++ sep) + N.to_nat cl)
        by (rewrite length_app; change (length sep) with 4; lia).
      rewrite app_assoc, drop_app_add. done.
Qed.

(** *** The loops terminate within their fuel *)

Lemma find_at_ge (needle s : bytes) (i j : nat) : find_at needle s i = Some j → i ≤ j.
Proof.
  revert i. induction s as [|c s IH]; intros i; rewrite find_at_eq.
  - destruct (starts_with needle []); [|done]. intros [= <-]. lia.
  - destruct (starts_with needle (c :: s)); [intros [= <-]; lia|].
    intros H%IH. lia.
Qed.

Lemma find_ge (buf needle : bytes) (pos j : nat) : find buf needle pos = Some j → pos ≤ j.
Proof.
  unfold find. destruct (length buf <? pos); [done|]. apply find_at_ge.
Qed.

(** The header loop gives the same result with any fuel above the distance
    to [headerEnd]: the fuel of [extractFrame] is never used up. *)
Lemma scanHeaders_fuel (fuel1 fuel2 : nat) (buf : bytes) (headerEnd pos : nat)
    (cl : N) (hl : bool) :
  headerEnd - pos < fuel1 → headerEnd - pos < fuel2 →
  scanHeaders fuel1 buf headerEnd pos cl hl = scanHeaders fuel2 buf headerEnd pos cl hl.
Proof.
  revert fuel2 pos cl hl.
  induction fuel1 as [|fuel1 IH]; intros fuel2 pos cl hl H1 H2; [lia|].
  destruct fuel2 as [|fuel2]; [lia|]. cbn [scanHeaders].
  destruct (Nat.ltb_spec pos headerEnd); [|done].
  destruct (find buf crlf pos) as [eol|] eqn:E; [|done].
  apply find_ge in E.
  destruct (headerEnd <? eol); [done|].
  destruct (headerLine _); [done|apply IH; lia|apply IH; lia].
Qed.

(** A returned frame takes at least its separator out of the buffer. *)
Lemma extractFrame_shrinks (st st' : Impl) (buf buf' payload : bytes) :
  extractFrame st buf = (Some payload, buf', st') → length buf' + 4 ≤ length buf.
Proof.
  unfold extractFrame.
  destruct (find buf sep 0) as [headerEnd|]; [|done].
  destruct (scanHeaders _ _ _ _ _ _) as [v|cl hl]; [done|].
  destruct hl; simpl negb; cbv iota; [|done].
  destruct (_ <? cl)%N; [done|].
  destruct (N.ltb_spec (size buf) (N.of_nat (headerEnd + length sep) + cl)); [done|].
  intros [= _ <- _]. unfold erase, size in *. rewrite length_drop.
  change (length sep) with 4 in *. lia.
Qed.

(** [drainFrames] gives the same result with any fuel above the length of
    the buffer: its fuel is never used up. *)
Lemma drainLoop_fuel (process : bytes → Impl → Impl) (fuel1 fuel2 : nat)
    (buffer : bytes) (st : Impl) :
  length buffer < fuel1 → length buffer < fuel2 →
  drainLoop fuel1 process buffer st = drainLoop fuel2 process buffer st.
Proof.
  revert fuel2 buffer st.
  induction fuel1 as [|fuel1 IH]; intros fuel2 buffer st H1 H2; [lia|].
  destruct fuel2 as [|fuel2]; [lia|]. cbn [drainLoop].
  destruct (connected st); [|done].
  destruct (extractFrame st buffer) as [[[payload|] buffer'] st'] eqn:E; [|done].
  apply extractFrame_shrinks in E. apply IH; lia.
Qed.

Lemma makeFrame_eq (payload : bytes) :
  makeFrame payload = join_lines [frameHeader (size payload)] ++ sep ++ payload.
Proof. unfold makeFrame, frameHeader. cbn [join_lines]. by rewrite <- !app_assoc. Qed.

Lemma headerLine_content_length (v : bytes) :
  headerLine (lit "Content-Length: " ++ v) =
  match stoull (ltrim v) with
  | Some v64 =>
      if (MaxContentLength <? v64)%N || (SIZE_MAX <? v64)%N
      then LineTooLarge v64 else LineLength v64
  | None => LineIgnored
  end.
Proof. reflexivity. Qed.

Lemma ltrim_digits (s : bytes) : Forall is_digit s → ltrim s = s.
Proof.
  destruct 1 as [|c s [d [Hd ->]] _]; [done|].
  simpl. by rewrite digit_char_not_space.
Qed.

Lemma headerLine_frameHeader (n : N) :
  (n ≤ MaxContentLength)%N → headerLine (frameHeader n) = LineLength n.
Proof.
  intros Hn. unfold frameHeader.
  rewrite headerLine_content_length, ltrim_digits by apply to_string_digits.
  unfold MaxContentLength in *.
  rewrite stoull_to_string by (unfold ULLONG_MAX; lia).
  destruct (N.ltb_spec 1048576 n); [lia|].
  destruct (N.ltb_spec SIZE_MAX n) as [H'|_]; [unfold SIZE_MAX in H'; lia|done].
Qed.

Lemma frameHeader_text (n : N) : header_text (frameHeader n).
Proof.
  split; [done|]. unfold frameHeader. apply Forall_app. split.
  - repeat (constructor; [discriminate|]). constructor.
  - apply is_digit_not_CR, to_string_digits.
Qed.

Lemma frameHeader_length (n : N) : length (frameHeader n) ≤ 36.
Proof.
  unfold frameHeader, to_string. rewrite length_app.
  pose proof (digits_length 20 n).
  change (length (lit "Content-Length: ")) with 16. lia.
Qed.

(** A complete frame at the front of the buffer is returned and removed. *)
Lemma extractFrame_makeFrame (st : Impl) (payload suffix : bytes) :
  (size payload ≤ MaxContentLength)%N →
  extractFrame st (makeFrame payload ++ suffix) = (Some payload, suffix, st).
Proof.
  intros Hn. rewrite makeFrame_eq, <- !app_assoc.
  pose proof (extractFrame_lines st [frameHeader (size payload)] (payload ++ suffix)) as E.
  cbn [foldLines join_lines] in E |- *. rewrite E
    by (constructor; [apply frameHeader_text|constructor]).
  clear E. rewrite headerLine_frameHeader by done.
  cbn [negb]. cbv iota zeta.
  pose proof (frameHeader_length (size payload)).
  unfold MaxContentLength, SIZE_MAX in *.
  destruct (N.ltb_spec (18446744073709551615
              - N.of_nat (length (frameHeader (size payload)) + 4)) (size payload));
    [lia|].
  assert (size (payload ++ suffix) = (size payload + size suffix)%N) as Hsz
    by (unfold size; rewrite length_app; lia).
  destruct (N.ltb_spec (size (payload ++ suffix)) (size payload)); [lia|].
  unfold size. rewrite Nat2N.id.
  by rewrite take_app_length, drop_app_length.
Qed.

Lemma find_sep_partial (h : bytes) (k i : nat) :
  Forall (fun c => c ≠ CR) h → k < length h + 4 →
  find_at sep (take k (h ++ sep)) i = None.
Proof.
  intros Hh Hk. destruct (Nat.le_gt_cases k (length h)) as [Hle|Hgt].
  - rewrite take_app_le by done. apply find_at_absent. by apply Forall_take.
  - replace k with (length h + (k - length h)) by lia.
    rewrite take_app_add. unfold sep at 1. rewrite find_at_skip by done.
    destruct (k - length h) as [|[|[|[|j]]]] eqn:E; try lia; reflexivity.
Qed.

(** A frame that has not arrived in full leaves the buffer as it is. *)
Lemma extractFrame_partial (st : Impl) (payload : bytes) (k : nat) :
  (size payload ≤ MaxContentLength)%N →
  k < length (makeFrame payload) →
  extractFrame st (take k (makeFrame payload)) = (None, take k (makeFrame payload), st).
Proof.
  intros Hn Hk. rewrite makeFrame_eq in *. cbn [join_lines] in *.
  set (h := frameHeader (size payload)) in *.
  destruct (Nat.lt_ge_cases k (length h + 4)) as [Hlt|Hge].
  - rewrite app_assoc, take_app_le
      by (rewrite length_app; change (length sep) with 4; lia).
    unfold extractFrame.
    rewrite find_zero, find_sep_partial; [done| |done].
    apply frameHeader_text.
  - replace k with (length (h ++ sep) + (k - length h - 4))
      by (rewrite length_app; change (length sep) with 4; lia).
    rewrite app_assoc, take_app_add, <- app_assoc.
    pose proof (extractFrame_lines st [h] (take (k - length h - 4) payload)) as E.
    cbn [foldLines join_lines] in E. rewrite E
      by (constructor; [apply frameHeader_text|constructor]).
    clear E. subst h. rewrite headerLine_frameHeader by done.
    cbn [negb]. cbv iota zeta.
    pose proof (frameHeader_length (size payload)).
    rewrite !length_app in Hk. change (length sep) with 4 in Hk.
    unfold MaxContentLength, SIZE_MAX in *.
    destruct (N.ltb_spec (18446744073709551615
                - N.of_nat (length (frameHeader (size payload)) + 4)) (size payload));
      [lia|].
    destruct (N.ltb_spec (size (take (k - length (frameHeader (size payload)) - 4) payload))
                (size payload)) as [_|Hbad]; [done|].
    unfold size in *. rewrite length_take in Hbad. lia.
Qed.

Section Drain.

Variable process : bytes → Impl → Impl.
Hypothesis process_connected :
  ∀ p s, connected s = true → connected (process p s) = true.

Lemma deliver_connected (payloads : list bytes) (st : Impl) :
  connected st = true → connected (deliver process st payloads) = true.
Proof.
  revert st. induction payloads as [|p ps IH]; intros st Hc; [done|].
  simpl. apply IH. by apply process_connected.
Qed.

Lemma makeFrame_length (payload : bytes) : 0 < length (makeFrame payload).
Proof. unfold makeFrame. rewrite !length_app. change (length sep) with 4. lia. Qed.

(** [drainFrames] delivers every complete frame of the buffer and keeps the
    incomplete rest. *)
Lemma drainLoop_frames (payloads : list bytes) :
  Forall (fun p => (size p ≤ MaxContentLength)%N) payloads →
  ∀ (buffer tail : bytes) (fuel : nat) (st : Impl),
    frames payloads = buffer ++ tail →
    length buffer < fuel →
    connected st = true →
    ∃ (done todo : list bytes) (buffer' : bytes),
      payloads = done ++ todo ∧
      drainLoop fuel process buffer st = (buffer', deliver process st done) ∧
      buffer' ++ tail = frames todo ∧
      drained buffer' todo.
Proof.
  induction 1 as [|p ps Hp Hps IH]; intros buffer tail fuel st Heq Hfuel Hc.
  - symmetry in Heq. apply app_eq_nil in Heq as [-> ->].
    exists [], [], []. destruct fuel; [lia|]. simpl. by rewrite Hc.
  - change (frames (p :: ps)) with (makeFrame p ++ frames ps) in Heq.
    destruct fuel as [|fuel]; [lia|]. cbn [drainLoop]. rewrite Hc.
    destruct (Nat.lt_ge_cases (length buffer) (length (makeFrame p))) as [Hlt|Hge].
    + assert (buffer = take (length buffer) (makeFrame p)) as Hb.
      { rewrite <- (take_app_le _ (frames ps)) by lia.
        by rewrite Heq, take_app_length. }
      rewrite Hb, extractFrame_partial by (done || by rewrite <- Hb).
      rewrite <- Hb. exists [], (p :: ps), buffer. by repeat split.
    + assert (∃ b2, buffer = makeFrame p ++ b2 ∧ frames ps = b2 ++ tail) as (b2 & -> & Hps').
      { exists (drop (length (makeFrame p)) buffer).
        assert (makeFrame p = take (length (makeFrame p)) buffer) as Hm.
        { rewrite <- (take_app_le _ tail) by lia.
          by rewrite <- Heq, take_app_length. }
        split.
        - rewrite Hm at 1. by rewrite take_drop.
        - apply (f_equal (drop (length (makeFrame p)))) in Heq.
          rewrite drop_app_length in Heq. rewrite Heq.
          by rewrite drop_app_le by lia. }
      rewrite extractFrame_makeFrame by done.
      destruct (IH b2 tail fuel (process p st)) as (dn & todo & b' & -> & Hd & Ht & Hdr).
      * done.
      * rewrite length_app in Hfuel. pose proof (makeFrame_length p). lia.
      * by apply process_connected.
      * exists (p :: dn), todo, b'. by repeat split.
Qed.

(** Reading the stream in chunks delivers the payloads in order. *)
Lemma readChunks_frames (chunks : list bytes) :
  ∀ (payloads : list bytes) (buffer : bytes) (st : Impl),
    Forall (fun p => (size p ≤ MaxContentLength)%N) payloads →
    buffer ++ concat chunks = frames payloads →
    drained buffer payloads →
    connected st = true →
    readChunks process chunks buffer st = ([], deliver process st payloads).
Proof.
  induction chunks as [|c cs IH]; intros payloads buffer st Hv Heq Hdr Hc.
  - simpl in Heq. rewrite app_nil_r in Heq. subst buffer.
    destruct payloads as [|p ps]; [done|].
    exfalso. unfold drained in Hdr.
    change (frames (p :: ps)) with (makeFrame p ++ frames ps) in Hdr.
    rewrite length_app in Hdr. lia.
  - simpl in Heq. cbn [readChunks]. unfold onData, drainFrames.
    destruct (drainLoop_frames payloads Hv (buffer ++ c) (concat cs)
                (S (length (buffer ++ c))) st)
      as (dn & todo & b' & -> & Hd & Ht & Hdr'); [by rewrite <- app_assoc|lia|done|].
    rewrite Hd. apply Forall_app in Hv as [_ Hv].
    rewrite (IH todo b' (deliver process st dn)); [|done|done|done|by apply deliver_connected].
    unfold deliver. by rewrite foldl_app.
Qed.

End Drain.

End Codec.

(** * Claims about the frame codec *)

(** C2: for every payload of at most [MaxContentLength] bytes (the empty
    payload and a payload of exactly 1 MiB included), extracting from a
    buffer that holds the encoded payload followed by any suffix returns the
    payload and leaves exactly the suffix in the buffer; the state is not
    touched. *)
Theorem extract_after_encode (st : Impl) (payload suffix : bytes) :
  (size payload ≤ MaxContentLength)%N →
  extractFrame st (makeFrame payload ++ suffix) = (Some payload, suffix, st).
Proof. apply extractFrame_makeFrame. Qed.

Lemma extract_after_encode_witness :
  extractFrame fresh (makeFrame (lit "hello") ++ lit "Content-") =
  (Some (lit "hello"), lit "Content-", fresh).
Proof. apply extract_after_encode. vm_compute. discriminate. Defined.

(** C1: when the concatenation of the frames of [payloads] arrives in
    arbitrary chunks, each appended to the reader buffer and followed by
    [drainFrames], the reader hands exactly [payloads], in order, to
    [process], and the buffer is empty at the end. *)
Theorem chunked_stream_delivers_payloads (process : bytes → Impl → Impl)
    (payloads chunks : list bytes) (st : Impl) :
  Forall (fun p => (size p ≤ MaxContentLength)%N) payloads →
  concat chunks = frames payloads →
  connected st = true →
  (∀ p s, connected s = true → connected (process p s) = true) →
  readChunks process chunks [] st = ([], deliver process st payloads).
Proof.
  intros Hv Heq Hc Hproc.
  apply readChunks_frames; try done.
  destruct payloads; simpl; [done|]. apply makeFrame_length.
Qed.

Lemma chunked_stream_delivers_payloads_witness :
  readChunks record_payload
    [lit "Content-Length: 5" ++ sep ++ lit "hel"; lit "loContent-Len";
     lit "gth: 0" ++ sep ++ lit "Content-Length: 2" ++ sep ++ lit "ok"] [] fresh =
  ([], deliver record_payload fresh [lit "hello"; []; lit "ok"]).
Proof.
  apply chunked_stream_delivers_payloads.
  - repeat constructor; vm_compute; discriminate.
  - vm_compute. reflexivity.
  - reflexivity.
  - intros p s H. exact H.
Defined.

(** Without a carriage return in the buffer [extractFrame] never finds a
    header: it reports that more input is needed, whatever the buffer
    holds. *)
Lemma extractFrame_without_CR (st : Impl) (buf : bytes) :
  Forall (fun c => c ≠ CR) buf → extractFrame st buf = (None, buf, st).
Proof.
  intros H. unfold extractFrame, sep. by rewrite find_zero, find_at_absent.
Qed.

(** C7: a frame whose header ends its lines with a bare line feed is not
    extracted by [extractFrame]: the call returns nothing and keeps the
    buffer, while the same frame with "\r\n" is extracted, and [readFrame]
    of the same unit accepts both spellings. *)
Theorem lf_only_header_is_not_extracted (st : Impl) :
  extractFrame st (lit "Content-Length: 5" ++ [LF; LF] ++ lit "hello")
  = (None, lit "Content-Length: 5" ++ [LF; LF] ++ lit "hello", st)
  ∧ extractFrame st (lit "Content-Length: 5" ++ sep ++ lit "hello")
    = (Some (lit "hello"), [], st)
  ∧ readFrame st (lit "Content-Length: 5" ++ [LF; LF] ++ lit "hello")
    = (Some (lit "hello"), [], st)
  ∧ readFrame st (lit "Content-Length: 5" ++ sep ++ lit "hello")
    = (Some (lit "hello"), [], st).
Proof. repeat split; vm_compute; reflexivity. Qed.

(** ** Framing errors *)

Lemma headerLine_too_large (l : bytes) (v : N) :
  headerLine l = LineTooLarge v → (MaxContentLength < v)%N.
Proof.
  unfold headerLine.
  destruct (find l (lit ":") 0); [|done].
  destruct (bytes_eqb _ _); [|done].
  destruct (stoull _) as [v64|]; [|done].
  destruct (N.ltb_spec MaxContentLength v64) as [H|H]; simpl.
  - intros [= <-]. done.
  - destruct (N.ltb_spec SIZE_MAX v64) as [H'|H']; [|done].
    intros [= <-]. unfold SIZE_MAX, MaxContentLength in *. lia.
Qed.

Lemma foldLines_ignored (lines : list bytes) (cl : N) (hl : bool) :
  Forall (fun l => headerLine l = LineIgnored) lines →
  foldLines lines cl hl = ScanDone cl hl.
Proof.
  induction 1 as [|l ls Hl _ IH]; [done|]. simpl. by rewrite Hl.
Qed.

Lemma foldLines_too_large (before after : list bytes) (l : bytes) (v cl : N)
    (hl : bool) :
  Forall (fun l' => ∀ v', headerLine l' ≠ LineTooLarge v') before →
  headerLine l = LineTooLarge v →
  foldLines (before ++ l :: after) cl hl = ScanTooLarge v.
Proof.
  intros Hb Hl. revert cl hl.
  induction Hb as [|b bs Hb _ IH]; intros cl hl; simpl.
  - by rewrite Hl.
  - destruct (headerLine b) as [v'| |]; [by destruct (Hb v')|apply IH|apply IH].
Qed.

Lemma callErrorHandler_connected (msg : bytes) (st : Impl) :
  connected (callErrorHandler msg st) = connected st.
Proof. unfold callErrorHandler. by destruct (errorHandler st). Qed.

(** [extractFrame] never changes the connection flag. *)
Lemma extractFrame_connected (st : Impl) (buf : bytes) :
  connected (extractFrame st buf).2 = connected st.
Proof.
  unfold extractFrame.
  destruct (find buf sep 0); [|done].
  destruct (scanHeaders _ _ _ _ _ _) as [v|cl hl]; simpl.
  - apply callErrorHandler_connected.
  - destruct hl; simpl; [|done].
    destruct (_ <? cl)%N; [done|]. by destruct (_ <? _)%N.
Qed.

(** C8, as the code has it: in front of the first separator,
    - header lines none of which yields a length (the Content-Length header
      is missing, or [std::stoull] rejects its value) make [extractFrame]
      drop the header region and return nothing, without a call of the error
      handler;
    - a Content-Length line whose value [std::stoull] reads as a number
      above [MaxContentLength] makes it call the error handler (when one is
      set) with "StdioTransport: body too large", drop the header region
      and return nothing;
    in both cases the buffer afterwards is what followed the separator, and
    [extractFrame] never changes [connected]. *)
Theorem framing_error_recovery (st : Impl) (lines : list bytes) (rest : bytes) :
  Forall header_text lines →
  (Forall (fun l => headerLine l = LineIgnored) lines →
   extractFrame st (join_lines lines ++ sep ++ rest) = (None, rest, st))
  ∧ (∀ before l after v,
       lines = before ++ l :: after →
       Forall (fun l' => ∀ v', headerLine l' ≠ LineTooLarge v') before →
       headerLine l = LineTooLarge v →
       (MaxContentLength < v)%N
       ∧ extractFrame st (join_lines lines ++ sep ++ rest)
         = (None, rest, callErrorHandler (lit "StdioTransport: body too large") st))
  ∧ connected (extractFrame st (join_lines lines ++ sep ++ rest)).2 = connected st.
Proof.
  intros Hlines. split; [|split].
  - intros Hign. rewrite extractFrame_lines by done.
    by rewrite foldLines_ignored.
  - intros before l after v -> Hb Hl. split; [by eapply headerLine_too_large|].
    rewrite extractFrame_lines by done.
    by rewrite (foldLines_too_large before after l v).
  - apply extractFrame_connected.
Qed.

Lemma framing_error_recovery_witness :
  extractFrame fresh (lit "X-Trace: 7" ++ crlf ++ lit "Content-Length: 1048577"
                      ++ sep ++ lit "Content-Length: 0" ++ sep)
  = (None, lit "Content-Length: 0" ++ sep,
     emit (ErrorHandlerCall (lit "StdioTransport: body too large")) fresh)
  ∧ extractFrame fresh (lit "Content-Type: json" ++ sep ++ lit "Content-Length: 0" ++ sep)
    = (None, lit "Content-Length: 0" ++ sep, fresh).
Proof.
  split.
  - destruct (framing_error_recovery fresh
                [lit "X-Trace: 7"; lit "Content-Length: 1048577"]
                (lit "Content-Length: 0" ++ sep)) as (_ & H & _).
    + repeat constructor; vm_compute; discriminate.
    + destruct (H [lit "X-Trace: 7"] (lit "Content-Length: 1048577") [] 1048577%N)
        as [_ H'].
      * reflexivity.
      * repeat constructor. intros v'. vm_compute. discriminate.
      * vm_compute. reflexivity.
      * exact H'.
  - destruct (framing_error_recovery fresh [lit "Content-Type: json"]
                (lit "Content-Length: 0" ++ sep)) as (H & _ & _).
    + repeat constructor; vm_compute; discriminate.
    + apply H. repeat constructor.
Defined.

(** C8 fails as stated: with an error handler set, a header region without
    Content-Length, one whose Content-Length is not a number and one whose
    Content-Length does not fit 64 bits are dropped without any call of the
    error handler (the state, with its record of handler calls, is the same
    afterwards). *)
Lemma framing_error_without_handler_call :
  errorHandler fresh = true
  ∧ extractFrame fresh (lit "Content-Type: json" ++ sep ++ lit "rest")
    = (None, lit "rest", fresh)
  ∧ extractFrame fresh (lit "Content-Length: abc" ++ sep ++ lit "rest")
    = (None, lit "rest", fresh)
  ∧ extractFrame fresh (lit "Content-Length: 18446744073709551616" ++ sep ++ lit "rest")
    = (None, lit "rest", fresh).
Proof. repeat split; vm_compute; reflexivity. Qed.

(** * The bounded write queue *)

Section WriteQueue.

Lemma total_size_app (q : list bytes) (frame : bytes) :
  total_size (q ++ [frame]) = (total_size q + size frame)%N.
Proof. induction q as [|f q IH]; simpl; [lia|]. rewrite IH. lia. Qed.

Lemma size_add_fits (a b : N) : (a + b < size_modulus)%N → size_add a b = (a + b)%N.
Proof. intros H. unfold size_add. by apply N.mod_small. Qed.

(** What [enqueueFrame] does to the queue. *)
Lemma enqueueFrame_qstate_raw (payload : bytes) (st : Impl) :
  qstate (enqueueFrame payload st).2 =
  if (writeQueueMaxBytes st <? size_add (queuedBytes st) (size (makeFrame payload)))%N
  then qstate st
  else (writeQueue st ++ [makeFrame payload],
        size_add (queuedBytes st) (size (makeFrame payload)), writeQueueMaxBytes st).
Proof.
  unfold enqueueFrame.
  destruct (_ <? _)%N; [|done].
  unfold callErrorHandler, signalWakeup.
  destruct (errorHandler st); simpl; destruct (wakeValid st); reflexivity.
Qed.

Lemma enqueueFrame_qstate (payload : bytes) (st : Impl) :
  fits payload st = true →
  qstate (enqueueFrame payload st).2 =
  if (writeQueueMaxBytes st <? queuedBytes st + size (makeFrame payload))%N
  then qstate st
  else (writeQueue st ++ [makeFrame payload],
        (queuedBytes st + size (makeFrame payload))%N, writeQueueMaxBytes st).
Proof.
  unfold fits. intros H%N.ltb_lt.
  by rewrite enqueueFrame_qstate_raw, size_add_fits.
Qed.

Lemma enqueueFrame_qstate_ext (payload : bytes) (st st' : Impl) :
  qstate st = qstate st' →
  qstate (enqueueFrame payload st).2 = qstate (enqueueFrame payload st').2.
Proof.
  intros Heq. rewrite !enqueueFrame_qstate_raw, Heq.
  injection Heq as -> -> ->. done.
Qed.

Lemma enqueueFrame_corr (payload : bytes) (st : Impl) :
  corr (enqueueFrame payload st).2 = corr st.
Proof.
  unfold enqueueFrame, callErrorHandler, signalWakeup.
  destruct (_ <? _)%N; [|done].
  destruct (errorHandler st); simpl; destruct (wakeValid st); reflexivity.
Qed.

End WriteQueue.

(** C4: as long as the sizes involved fit [std::size_t], an enqueue that
    would take [queuedBytes] above [writeQueueMaxBytes] calls the error
    handler (when one is set) with "StdioTransport: write queue overflow",
    sets [connected] to false, signals the wake-up handle (when it is
    valid), notifies every waiter of [cvWrite] and returns false, leaving
    the queue and [queuedBytes] as they were; an enqueue within the cap
    appends the frame, adds its size to [queuedBytes], notifies one waiter
    of [cvWrite] and returns true. *)
Theorem enqueueFrame_overflow_or_append (st : Impl) (payload : bytes) :
  (queuedBytes st + size (makeFrame payload) < size_modulus)%N →
  ((writeQueueMaxBytes st < queuedBytes st + size (makeFrame payload))%N →
   (enqueueFrame payload st).1 = false
   ∧ connected (enqueueFrame payload st).2 = false
   ∧ events (enqueueFrame payload st).2 =
       events st
       ++ (if errorHandler st
           then [ErrorHandlerCall (lit "StdioTransport: write queue overflow")]
           else [])
       ++ (if wakeValid st then [WakeSignal] else [])
       ++ [NotifyWriteAll]
   ∧ writeQueue (enqueueFrame payload st).2 = writeQueue st
   ∧ queuedBytes (enqueueFrame payload st).2 = queuedBytes st)
  ∧ ((queuedBytes st + size (makeFrame payload) ≤ writeQueueMaxBytes st)%N →
     (enqueueFrame payload st).1 = true
     ∧ connected (enqueueFrame payload st).2 = connected st
     ∧ events (enqueueFrame payload st).2 = events st ++ [NotifyWriteOne]
     ∧ writeQueue (enqueueFrame payload st).2 = writeQueue st ++ [makeFrame payload]
     ∧ queuedBytes (enqueueFrame payload st).2
       = (queuedBytes st + size (makeFrame payload))%N).
Proof.
  intros Hfit. unfold enqueueFrame. rewrite size_add_fits by done.
  split; intros Hcap.
  - destruct (N.ltb_spec (writeQueueMaxBytes st)
                (queuedBytes st + size (makeFrame payload))); [|lia].
    unfold callErrorHandler, signalWakeup.
    destruct (errorHandler st); simpl; destruct (wakeValid st); simpl;
      rewrite <- ?app_assoc; done.
  - destruct (N.ltb_spec (writeQueueMaxBytes st)
                (queuedBytes st + size (makeFrame payload))); [lia|done].
Qed.

Lemma enqueueFrame_overflow_or_append_witness :
  ((enqueueFrame (lit "0123456789") tight).1 = false
   ∧ connected (enqueueFrame (lit "0123456789") tight).2 = false)
  ∧ ((enqueueFrame (lit "0123456789") fresh).1 = true
     ∧ queuedBytes (enqueueFrame (lit "0123456789") fresh).2 = 32%N).
Proof.
  split.
  - destruct (enqueueFrame_overflow_or_append tight (lit "0123456789")) as [H _];
      [vm_compute; reflexivity|].
    destruct H as (H1 & H2 & _); [vm_compute; reflexivity|].
    split; [exact H1|exact H2].
  - destruct (enqueueFrame_overflow_or_append fresh (lit "0123456789")) as [_ H];
      [vm_compute; reflexivity|].
    destruct H as (H1 & _ & _ & _ & H2); [vm_compute; discriminate|].
    split; [exact H1|exact H2].
Defined.

(** * Dispatch, correlation and the transition system *)

Section Transport.

Context `{codec : JSONCodec}.

(** ** Operations that leave the write queue alone *)

Lemma handleResponse_qstate (response : JSONRPCResponse) (st : Impl) :
  qstate (handleResponse response st) = qstate st.
Proof. unfold handleResponse. by destruct (pendingRequests st !! _). Qed.

Lemma processMessage_qstate (message : bytes) (st : Impl) :
  qstate (processMessage message st) = qstate st.
Proof.
  unfold processMessage.
  destruct (if contains _ _ && contains _ _ then _ else _) as [request|];
    [destruct (requestHandler st); [done|]|];
    (destruct (DeserializeResponse message); [apply handleResponse_qstate|done]).
Qed.

Lemma expireOne_qstate (st : Impl) (idStr : bytes) :
  qstate (expireOne st idStr) = qstate st.
Proof. unfold expireOne. by destruct (pendingRequests st !! _). Qed.

Lemma foldl_expireOne_qstate (ids : list bytes) (st : Impl) :
  qstate (foldl expireOne st ids) = qstate st.
Proof.
  revert st. induction ids as [|i ids IH]; intros st; [done|].
  simpl. by rewrite IH, expireOne_qstate.
Qed.

Lemma timeoutRound_qstate (now : Z) (st : Impl) :
  qstate (timeoutRound now st) = qstate st.
Proof.
  unfold timeoutRound, consumeExpired.
  destruct (connected st); [apply foldl_expireOne_qstate|done].
Qed.

Lemma foldl_fulfil_qstate (l : list (bytes * nat)) (st : Impl) :
  qstate (foldl (fun s kv => fulfil kv.2 ByClose
                               (errorResponse kv.1 (lit "Transport closed")) s) st l)
  = qstate st.
Proof. revert st. induction l as [|kv l IH]; intros st; [done|]. simpl. by rewrite IH. Qed.

Lemma Close_qstate (st : Impl) : qstate (Close st) = qstate st.
Proof.
  unfold Close, failPending, signalWakeup. simpl.
  change (qstate (emit NotifyTimeoutAll ?x)) with (qstate x).
  change (qstate (set_requests ∅ ∅ ?x)) with (qstate x).
  rewrite foldl_fulfil_qstate. by destruct (wakeValid st).
Qed.

Lemma assignId_qstate (request : JSONRPCRequest) (st : Impl) :
  qstate (assignId request st).2 = qstate st.
Proof.
  unfold assignId.
  destruct (req_id request) as [s'|i|]; [destruct (negb (is_empty s'))| |]; done.
Qed.

Lemma SendRequest_qstate (request : JSONRPCRequest) (now : Z) (st : Impl) :
  qstate (SendRequest request now st).2 =
  if connected st
  then qstate (enqueueFrame (requestPayload request st) st).2
  else qstate st.
Proof.
  unfold SendRequest, requestPayload.
  destruct (connected st); simpl; [|done].
  pose proof (assignId_qstate request st) as Ha.
  destruct (assignId request st) as [[requestId request1] st1]. simpl in *.
  destruct (enqueueFrame (SerializeRequest request1) _) as [ok st4] eqn:E.
  simpl. change st4 with (ok, st4).2. rewrite <- E.
  apply enqueueFrame_qstate_ext. by rewrite <- Ha.
Qed.

(** ** The accounting invariant of the write queue *)

Lemma step_queue_inv (cap : N) (op : Op) (s s' : System) :
  queue_inv cap s → step op s = Some s' → queue_inv cap s'.
Proof.
  unfold queue_inv, accounted. intros (Hcap & Hacc & Hle) Hstep.
  destruct op as [request now|payload|message|now| | | |]; simpl in Hstep.
  - (* SendRequest *)
    destruct (negb (connected (impl s)) || fits _ _) eqn:Hg; [|done].
    injection Hstep as <-. simpl.
    pose proof (SendRequest_qstate request now (impl s)) as Hq.
    destruct (connected (impl s)); simpl in Hg.
    + rewrite enqueueFrame_qstate in Hq by done.
      destruct (N.ltb_spec (writeQueueMaxBytes (impl s))
                  (queuedBytes (impl s) + size (makeFrame (requestPayload request (impl s)))));
        injection Hq as -> -> ->; [done|].
      rewrite total_size_app. repeat split; lia.
    + by injection Hq as -> -> ->.
  - (* enqueueFrame *)
    destruct (fits payload (impl s)) eqn:Hg; [|done].
    injection Hstep as <-. simpl.
    pose proof (enqueueFrame_qstate payload (impl s) Hg) as Hq.
    destruct (N.ltb_spec (writeQueueMaxBytes (impl s))
                (queuedBytes (impl s) + size (makeFrame payload)));
      injection Hq as -> -> ->; [done|].
    rewrite total_size_app. repeat split; lia.
  - injection Hstep as <-. simpl.
    pose proof (processMessage_qstate message (impl s)) as Hq.
    by injection Hq as -> -> ->.
  - injection Hstep as <-. simpl.
    pose proof (timeoutRound_qstate now (impl s)) as Hq.
    by injection Hq as -> -> ->.
  - (* the writer dequeues *)
    destruct (writerFrame s) as [f|] eqn:Hw; [done|].
    unfold dequeueNextFrame in Hstep.
    destruct (negb (negb (connected (impl s)) || negb (is_empty (writeQueue (impl s)))));
      [done|].
    destruct (negb (connected (impl s)) && is_empty (writeQueue (impl s))); [done|].
    destruct (writeQueue (impl s)) as [|frame q] eqn:Hq; injection Hstep as <-; simpl.
    + rewrite Hq. repeat split; [done|lia|done].
    + change (total_size (frame :: q)) with (size frame + total_size q)%N in Hacc.
      destruct frame as [|c frame]; cbn [is_empty].
      * change (size []) with 0%N in Hacc. repeat split; [done|lia|done].
      * repeat split; [done|lia|done].
  - (* the writer accounts for its frame *)
    destruct (writerFrame s) as [frame|] eqn:Hw; [|done].
    injection Hstep as <-. unfold accountWritten. simpl.
    destruct (N.leb_spec (size frame) (queuedBytes (impl s))); simpl; repeat split; lia.
  - injection Hstep as <-. done.
  - injection Hstep as <-. simpl.
    pose proof (Close_qstate (impl s)) as Hq.
    by injection Hq as -> -> ->.
Qed.

Lemma run_queue_inv (cap : N) (ops : list Op) (s s' : System) :
  queue_inv cap s → run ops s = Some s' → queue_inv cap s'.
Proof.
  revert s. induction ops as [|op ops IH]; intros s Hinv Hrun; simpl in Hrun.
  - by injection Hrun as <-.
  - destruct (step op s) as [s1|] eqn:E; [|done].
    eapply IH; [|done]. by eapply step_queue_inv.
Qed.

(** ** The life of a promise *)

Lemma correlation_inv_ext (st st' : Impl) :
  corr st = corr st' → correlation_inv st → correlation_inv st'.
Proof.
  intros [= Hp Hd Hn Hf Ha] [H1 H2 H3]. split.
  - by rewrite <- Hp, <- Hd.
  - intros id1 id2 slot. rewrite <- Hp. apply H2.
  - intros slot. specialize (H3 slot).
    unfold slot_state, is_pending, fulfilments in *.
    by rewrite <- Hp, <- Hn, <- Hf, <- Ha.
Qed.

Lemma handleResponse_complete (response : JSONRPCResponse) (st : Impl) :
  handleResponse response st = complete (idKey (resp_id response)) ByResponse response st.
Proof. reflexivity. Qed.

Lemma expireOne_complete (st : Impl) (idStr : bytes) :
  expireOne st idStr
  = complete idStr ByDeadline (errorResponse idStr (lit "Request timeout")) st.
Proof. reflexivity. Qed.

(** A pending promise was created, has no value and was not destroyed. *)
Lemma pending_slot_state (st : Impl) (slot : nat) :
  slot_state st slot → is_pending slot st →
  slot < nextSlot st ∧ fulfilments slot st = 0 ∧ slot ∉ abandoned st.
Proof.
  unfold slot_state. intros H Hp.
  destruct (Nat.ltb_spec slot (nextSlot st)).
  - destruct H as [(_ & ? & ?)|[(Hn & _)|(Hn & _)]]; [done|by destruct Hn..].
  - destruct H as (Hn & _). by destruct Hn.
Qed.

Lemma complete_inv (idStr : bytes) (cause : Cause) (resp : JSONRPCResponse)
    (st : Impl) :
  correlation_inv st → correlation_inv (complete idStr cause resp st).
Proof.
  intros [Hdom Hinj Hslots]. unfold complete.
  destruct (pendingRequests st !! idStr) as [slot|] eqn:Hlk.
  - split; simpl.
    + by rewrite !dom_delete_L, Hdom.
    + intros id1 id2 sl [_ H1]%lookup_delete_Some [_ H2]%lookup_delete_Some. eauto.
    + intros sl. pose proof (Hslots sl) as Hsl.
      destruct (pending_slot_state st slot (Hslots slot)) as (Hlt & Hf & Ha);
        [by exists idStr|].
      unfold slot_state, is_pending, fulfilments in *. simpl.
      rewrite List.filter_app, length_app. simpl.
      destruct (decide (sl = slot)) as [->|Hne].
      * rewrite Nat.eqb_refl. simpl.
        destruct (Nat.ltb_spec slot (nextSlot st)); [|lia].
        right; left. split; [|split; [lia|done]].
        intros [id' [Hne' H']%lookup_delete_Some]. apply Hne'. eauto.
      * replace (slot =? sl) with false by (symmetry; by apply Nat.eqb_neq).
        simpl. rewrite Nat.add_0_r.
        assert ((∃ id', delete idStr (pendingRequests st) !! id' = Some sl)
                ↔ (∃ id', pendingRequests st !! id' = Some sl)) as Hiff.
        { split; intros [id' H'].
          - apply lookup_delete_Some in H' as [_ H']. eauto.
          - exists id'. apply lookup_delete_Some. split; [|done].
            intros ->. congruence. }
        destruct (sl <? nextSlot st); by rewrite Hiff.
  - split; simpl.
    + rewrite dom_delete_L, <- Hdom. apply not_elem_of_dom in Hlk. set_solver.
    + done.
    + intros sl. exact (Hslots sl).
Qed.

Lemma foldl_expireOne_inv (ids : list bytes) (st : Impl) :
  correlation_inv st → correlation_inv (foldl expireOne st ids).
Proof.
  revert st. induction ids as [|i ids IH]; intros st Hinv; [done|].
  simpl. apply IH. rewrite expireOne_complete. by apply complete_inv.
Qed.

Lemma storePromise_inv (requestId : bytes) (deadline : Z) (st : Impl) :
  correlation_inv st → correlation_inv (storePromise requestId deadline st).2.
Proof.
  intros [Hdom Hinj Hslots]. unfold storePromise.
  assert (∀ id', pendingRequests st !! id' ≠ Some (nextSlot st)) as Hfresh.
  { intros id' H'.
    destruct (pending_slot_state st (nextSlot st) (Hslots _)) as (? & _);
      [by exists id'|lia]. }
  split; simpl.
  - by rewrite !dom_insert_L, Hdom.
  - intros id1 id2 sl H1 H2.
    apply lookup_insert_Some in H1 as [[<- <-]|[Hne1 H1]];
      apply lookup_insert_Some in H2 as [[<- H2]|[Hne2 H2]].
    + done.
    + by destruct (Hfresh _ H2).
    + subst sl. by destruct (Hfresh _ H1).
    + eauto.
  - intros sl. pose proof (Hslots sl) as Hsl.
    unfold slot_state, is_pending, fulfilments in *. simpl.
    destruct (decide (sl = nextSlot st)) as [->|Hne].
    + destruct (Nat.ltb_spec (nextSlot st) (S (nextSlot st))); [|lia].
      destruct (Nat.ltb_spec (nextSlot st) (nextSlot st)); [lia|].
      destruct Hsl as (_ & Hf & Ha).
      left. split; [exists requestId; by rewrite lookup_insert_eq|].
      split; [done|].
      destruct (pendingRequests st !! requestId) as [old|] eqn:Hold; [|done].
      rewrite elem_of_app, list_elem_of_singleton. intros [?|Heq]; [done|].
      rewrite <- Heq in Hold. by destruct (Hfresh _ Hold).
    + replace (sl <? S (nextSlot st)) with (sl <? nextSlot st)
        by (destruct (Nat.ltb_spec sl (nextSlot st)), (Nat.ltb_spec sl (S (nextSlot st))); lia).
      destruct (pendingRequests st !! requestId) as [old|] eqn:Hold.
      * destruct (decide (sl = old)) as [->|Hne'].
        -- destruct (pending_slot_state st old (Hslots old)) as (Hlt & Hf & Ha);
             [by exists requestId|].
           destruct (Nat.ltb_spec old (nextSlot st)); [|lia].
           right; right. split; [|split; [done|]].
           ++ intros [id' [[_ ?]|[Hne2 H2]]%lookup_insert_Some]; [done|].
              apply Hne2. eauto.
           ++ rewrite elem_of_app, list_elem_of_singleton. by right.
        -- assert ((∃ id', <[requestId:=nextSlot st]> (pendingRequests st) !! id' = Some sl)
                   ↔ (∃ id', pendingRequests st !! id' = Some sl)) as Hiff.
           { split; intros [id' H'].
             - apply lookup_insert_Some in H' as [[_ ?]|[_ H']]; [done|eauto].
             - exists id'. apply lookup_insert_Some. right. split; [|done].
               intros ->. congruence. }
           assert (sl ∈ abandoned st ++ [old] ↔ sl ∈ abandoned st) as Hab.
           { rewrite elem_of_app, list_elem_of_singleton. tauto. }
           destruct (sl <? nextSlot st); by rewrite Hiff, Hab.
      * assert ((∃ id', <[requestId:=nextSlot st]> (pendingRequests st) !! id' = Some sl)
                ↔ (∃ id', pendingRequests st !! id' = Some sl)) as Hiff.
        { split; intros [id' H'].
          - apply lookup_insert_Some in H' as [[_ ?]|[_ H']]; [done|eauto].
          - exists id'. apply lookup_insert_Some. right. split; [|done].
            intros ->. congruence. }
        destruct (sl <? nextSlot st); by rewrite Hiff.
Qed.

Lemma foldl_fulfil_corr (l : list (bytes * nat)) (st : Impl) :
  corr (foldl (fun s kv => fulfil kv.2 ByClose
                             (errorResponse kv.1 (lit "Transport closed")) s) st l)
  = (pendingRequests st, requestDeadlines st, nextSlot st,
     fulfilled st ++ map closed_fulfilment l, abandoned st).
Proof.
  revert st. induction l as [|kv l IH]; intros st; simpl.
  - unfold corr. by rewrite app_nil_r.
  - rewrite IH. simpl. by rewrite <- app_assoc.
Qed.

Lemma failPending_fields (st : Impl) :
  pendingRequests (failPending st) = ∅
  ∧ requestDeadlines (failPending st) = ∅
  ∧ nextSlot (failPending st) = nextSlot st
  ∧ fulfilled (failPending st)
    = fulfilled st ++ map closed_fulfilment (map_to_list (pendingRequests st))
  ∧ abandoned (failPending st) = abandoned st.
Proof.
  pose proof (foldl_fulfil_corr (map_to_list (pendingRequests st)) st) as H.
  unfold corr in H. injection H as _ _ Hn Hf Ha.
  unfold failPending. simpl. by rewrite Hn, Hf, Ha.
Qed.

Lemma filter_closed (slot : nat) (l : list (bytes * nat)) :
  length (List.filter (fun f => ful_slot f =? slot) (map closed_fulfilment l))
  = length (List.filter (fun kv : bytes * nat => kv.2 =? slot) l).
Proof.
  induction l as [|kv l IH]; [done|]. simpl.
  destruct (kv.2 =? slot); simpl; by rewrite IH.
Qed.

(** In an injective map a value is stored at most once. *)
Lemma count_values (m : gmap bytes nat) (slot : nat) :
  (∀ id1 id2 s, m !! id1 = Some s → m !! id2 = Some s → id1 = id2) →
  ((∃ idStr, m !! idStr = Some slot) →
   length (List.filter (fun kv : bytes * nat => kv.2 =? slot) (map_to_list m)) = 1)
  ∧ (¬ (∃ idStr, m !! idStr = Some slot) →
     length (List.filter (fun kv : bytes * nat => kv.2 =? slot) (map_to_list m)) = 0).
Proof.
  intros Hinj.
  set (L := List.filter (fun kv : bytes * nat => kv.2 =? slot) (map_to_list m)).
  assert (∀ kv, In kv L ↔ m !! kv.1 = Some kv.2 ∧ kv.2 = slot) as HL.
  { intros [k v]. unfold L. rewrite List.filter_In, <- list_elem_of_In,
      elem_of_map_to_list. simpl. by rewrite Nat.eqb_eq. }
  assert (List.NoDup L) as Hnd
    by (apply List.NoDup_filter, NoDup_ListNoDup, NoDup_map_to_list).
  split.
  - intros [idStr Hid].
    assert (In (idStr, slot) L) as Hin by (by apply HL).
    destruct L as [|x [|y L']]; [done|done|exfalso].
    assert (x = (idStr, slot)) as ->.
    { destruct x as [k v]. destruct (proj1 (HL (k, v))) as [Hk Hv]; [by left|].
      simpl in *. subst v. f_equal. eauto. }
    assert (y = (idStr, slot)) as ->.
    { destruct y as [k v]. destruct (proj1 (HL (k, v))) as [Hk Hv]; [right; by left|].
      simpl in *. subst v. f_equal. eauto. }
    apply List.NoDup_cons_iff in Hnd as [Hnot _]. apply Hnot. by left.
  - intros Hno. destruct L as [|[k v] L']; [done|exfalso].
    destruct (proj1 (HL (k, v))) as [Hk Hv]; [by left|].
    simpl in *. subst v. apply Hno. eauto.
Qed.

Lemma failPending_inv (st : Impl) : correlation_inv st → correlation_inv (failPending st).
Proof.
  intros [Hdom Hinj Hslots].
  destruct (failPending_fields st) as (Hp & Hd & Hn & Hf & Ha).
  split.
  - by rewrite Hp, Hd.
  - intros id1 id2 slot. rewrite Hp. by rewrite lookup_empty.
  - intros slot. pose proof (Hslots slot) as Hsl.
    destruct (count_values (pendingRequests st) slot Hinj) as [Hone Hzero].
    unfold slot_state, is_pending, fulfilments in *.
    rewrite Hp, Hn, Hf, Ha, List.filter_app, length_app, filter_closed.
    assert (¬ (∃ idStr : bytes, (∅ : gmap bytes nat) !! idStr = Some slot)) as Hnone
      by (intros [? H]; by rewrite lookup_empty in H).
    destruct (slot <? nextSlot st).
    + destruct Hsl as [(Hpd & Hfl & Hab)|[(Hpd & Hfl & Hab)|(Hpd & Hfl & Hab)]].
      * right; left. rewrite Hone by done. repeat split; [done|lia|done].
      * right; left. rewrite Hzero by done. repeat split; [done|lia|done].
      * right; right. rewrite Hzero by done. repeat split; [done|lia|done].
    + destruct Hsl as (Hpd & Hfl & Hab). rewrite Hzero by done.
      repeat split; [done|lia|done].
Qed.

Lemma Close_inv (st : Impl) : correlation_inv st → correlation_inv (Close st).
Proof.
  intros Hinv. unfold Close.
  eapply (correlation_inv_ext (failPending _)); [reflexivity|].
  apply failPending_inv.
  eapply correlation_inv_ext; [|exact Hinv].
  unfold signalWakeup. simpl. by destruct (wakeValid st).
Qed.

Lemma processMessage_inv (message : bytes) (st : Impl) :
  correlation_inv st → correlation_inv (processMessage message st).
Proof.
  intros Hinv. unfold processMessage.
  destruct (if contains _ _ && contains _ _ then _ else _) as [request|];
    [destruct (requestHandler st);
       [by eapply correlation_inv_ext; [|exact Hinv]|]|];
    (destruct (DeserializeResponse message);
       [rewrite handleResponse_complete; by apply complete_inv|done]).
Qed.

Lemma assignId_corr (request : JSONRPCRequest) (st : Impl) :
  corr (assignId request st).2 = corr st.
Proof.
  unfold assignId.
  destruct (req_id request) as [s'|i|]; [destruct (negb (is_empty s'))| |]; done.
Qed.

Lemma SendRequest_corr (request : JSONRPCRequest) (now : Z) (st : Impl) :
  corr (SendRequest request now st).2 =
  if connected st
  then corr (storePromise (assignId request st).1.1
               (now + requestTimeout (assignId request st).2)
               (assignId request st).2).2
  else corr st.
Proof.
  unfold SendRequest. destruct (connected st); cbn [negb]; [|done].
  destruct (assignId request st) as [[requestId request1] st1]. cbn [fst snd].
  destruct (storePromise requestId (now + requestTimeout st1) st1) as [slot st2].
  cbn [snd].
  pose proof (enqueueFrame_corr (SerializeRequest request1) (emit NotifyTimeoutAll st2)) as He.
  destruct (enqueueFrame (SerializeRequest request1) (emit NotifyTimeoutAll st2))
    as [ok st4].
  exact He.
Qed.

Lemma SendRequest_inv (request : JSONRPCRequest) (now : Z) (st : Impl) :
  correlation_inv st → correlation_inv (SendRequest request now st).2.
Proof.
  intros Hinv.
  pose proof (SendRequest_corr request now st) as Hc.
  destruct (connected st).
  - eapply correlation_inv_ext; [symmetry; exact Hc|].
    apply storePromise_inv.
    eapply correlation_inv_ext; [symmetry; apply assignId_corr|done].
  - by eapply correlation_inv_ext; [symmetry; exact Hc|].
Qed.

Lemma step_correlation_inv (op : Op) (s s' : System) :
  correlation_inv (impl s) → step op s = Some s' → correlation_inv (impl s').
Proof.
  intros Hinv Hstep.
  destruct op as [request now|payload|message|now| | | |]; simpl in Hstep.
  - destruct (negb (connected (impl s)) || fits _ _); [|done].
    injection Hstep as <-. by apply SendRequest_inv.
  - destruct (fits payload (impl s)); [|done].
    injection Hstep as <-. simpl.
    eapply correlation_inv_ext; [symmetry; apply enqueueFrame_corr|done].
  - injection Hstep as <-. by apply processMessage_inv.
  - injection Hstep as <-. simpl. unfold timeoutRound, consumeExpired.
    destruct (connected (impl s)); [by apply foldl_expireOne_inv|done].
  - destruct (writerFrame s); [done|].
    unfold dequeueNextFrame in Hstep.
    destruct (negb (negb (connected (impl s)) || negb (is_empty (writeQueue (impl s)))));
      [done|].
    destruct (negb (connected (impl s)) && is_empty (writeQueue (impl s))); [done|].
    destruct (writeQueue (impl s)); injection Hstep as <-; [done|].
    by eapply correlation_inv_ext; [|exact Hinv].
  - destruct (writerFrame s) as [frame|]; [|done].
    injection Hstep as <-. simpl. unfold accountWritten.
    destruct (_ <=? _)%N; by eapply correlation_inv_ext; [|exact Hinv].
  - injection Hstep as <-. by eapply correlation_inv_ext; [|exact Hinv].
  - injection Hstep as <-. by apply Close_inv.
Qed.

Lemma run_correlation_inv (ops : list Op) (s s' : System) :
  correlation_inv (impl s) → run ops s = Some s' → correlation_inv (impl s').
Proof.
  revert s. induction ops as [|op ops IH]; intros s Hinv Hrun; simpl in Hrun.
  - by injection Hrun as <-.
  - destruct (step op s) as [s1|] eqn:E; [|done].
    eapply IH; [|done]. by eapply step_correlation_inv.
Qed.

Lemma started_correlation_inv (errH reqH notH wake : bool) (timeout : Z) (cap : N) :
  correlation_inv (impl (started errH reqH notH wake timeout cap)).
Proof.
  split; simpl.
  - done.
  - intros id1 id2 slot H. by rewrite lookup_empty in H.
  - intros slot. unfold slot_state, is_pending, fulfilments. simpl.
    split; [|split; [done|apply not_elem_of_nil]].
    intros [? H]. by rewrite lookup_empty in H.
Qed.

(** Only [SendRequest] with the id of a pending request destroys a
    promise. *)
Lemma complete_abandoned (idStr : bytes) (cause : Cause) (resp : JSONRPCResponse)
    (st : Impl) :
  abandoned (complete idStr cause resp st) = abandoned st.
Proof. unfold complete. by destruct (pendingRequests st !! idStr). Qed.

Lemma foldl_expireOne_abandoned (ids : list bytes) (st : Impl) :
  abandoned (foldl expireOne st ids) = abandoned st.
Proof.
  revert st. induction ids as [|i ids IH]; intros st; [done|].
  simpl. by rewrite IH, expireOne_complete, complete_abandoned.
Qed.

Lemma Close_fields (st : Impl) :
  pendingRequests (Close st) = ∅
  ∧ requestDeadlines (Close st) = ∅
  ∧ nextSlot (Close st) = nextSlot st
  ∧ abandoned (Close st) = abandoned st.
Proof.
  unfold Close.
  destruct (failPending_fields
              (signalWakeup (emit NotifyTimeoutAll (set_connected false st))))
    as (H1 & H2 & H3 & _ & H5).
  repeat split; try done.
  - change (nextSlot (emit NotifyTimeoutAll ?x)) with (nextSlot x). rewrite H3.
    unfold signalWakeup. simpl. by destruct (wakeValid st).
  - change (abandoned (emit NotifyTimeoutAll ?x)) with (abandoned x). rewrite H5.
    unfold signalWakeup. simpl. by destruct (wakeValid st).
Qed.

Lemma corr_abandoned (st st' : Impl) : corr st = corr st' → abandoned st = abandoned st'.
Proof. by intros [= _ _ _ _ H]. Qed.

Lemma step_abandoned (op : Op) (s s' : System) :
  reuses_pending_id op s = false → step op s = Some s' →
  abandoned (impl s') = abandoned (impl s).
Proof.
  intros Hre Hstep.
  destruct op as [request now|payload|message|now| | | |]; simpl in Hstep, Hre.
  - destruct (negb (connected (impl s)) || fits _ _); [|done].
    injection Hstep as <-. simpl.
    pose proof (SendRequest_corr request now (impl s)) as Hc.
    destruct (connected (impl s)); [|by apply corr_abandoned]. simpl in Hre.
    rewrite (corr_abandoned _ _ Hc).
    apply bool_decide_eq_false in Hre.
    pose proof (assignId_corr request (impl s)) as Ha.
    injection Ha as Hp _ _ _ Hab. unfold storePromise. simpl.
    rewrite Hp. destruct (pendingRequests (impl s) !! _) eqn:E; [|done].
    destruct Hre. by eexists.
  - destruct (fits payload (impl s)); [|done]. injection Hstep as <-. simpl.
    apply corr_abandoned, enqueueFrame_corr.
  - injection Hstep as <-. simpl. unfold processMessage.
    destruct (if contains _ _ && contains _ _ then _ else _) as [request|];
      [destruct (requestHandler (impl s)); [done|]|];
      (destruct (DeserializeResponse message);
         [by rewrite handleResponse_complete, complete_abandoned|done]).
  - injection Hstep as <-. simpl. unfold timeoutRound, consumeExpired.
    destruct (connected (impl s)); [apply foldl_expireOne_abandoned|done].
  - destruct (writerFrame s); [done|].
    unfold dequeueNextFrame in Hstep.
    destruct (negb (negb (connected (impl s)) || negb (is_empty (writeQueue (impl s)))));
      [done|].
    destruct (negb (connected (impl s)) && is_empty (writeQueue (impl s))); [done|].
    by destruct (writeQueue (impl s)); injection Hstep as <-.
  - destruct (writerFrame s) as [frame|]; [|done].
    injection Hstep as <-. simpl. unfold accountWritten. by destruct (_ <=? _)%N.
  - by injection Hstep as <-.
  - injection Hstep as <-. apply Close_fields.
Qed.

Lemma run_abandoned (ops : list Op) (s s' : System) :
  no_id_reuse ops s = true → run ops s = Some s' →
  abandoned (impl s') = abandoned (impl s).
Proof.
  revert s. induction ops as [|op ops IH]; intros s Hno Hrun; simpl in *.
  - by injection Hrun as <-.
  - apply andb_true_iff in Hno as [Hre Hno]. apply negb_true_iff in Hre.
    destruct (step op s) as [s1|] eqn:E; [|done].
    rewrite (IH s1 Hno Hrun). by eapply step_abandoned.
Qed.

Lemma handleResponse_events (response : JSONRPCResponse) (st : Impl) :
  events (handleResponse response st) = events st.
Proof. unfold handleResponse. by destruct (pendingRequests st !! _). Qed.

(** C3, as the code has it: in every state the transport reaches,
    [pendingRequests] and [requestDeadlines] have the same keys; every
    promise [SendRequest] stored, unless a later [SendRequest] with the same
    id destroyed it while it was pending, is either still stored (and has no
    value yet) or has received exactly one value (from a response, from the
    expiry sweep or from [Close]) and is stored no more; a destroyed promise
    never receives a value; [Close] empties both maps and leaves every
    promise that was not destroyed with exactly one value; and no promise is
    destroyed in a run in which no [SendRequest] reuses the id of a pending
    request. *)
Theorem promise_fulfilled_once (errH reqH notH wake : bool) (timeout : Z) (cap : N)
    (ops : list Op) (s : System) :
  run ops (started errH reqH notH wake timeout cap) = Some s →
  dom (pendingRequests (impl s)) = dom (requestDeadlines (impl s))
  ∧ (∀ slot, slot < nextSlot (impl s) → slot ∉ abandoned (impl s) →
       (is_pending slot (impl s) ∧ fulfilments slot (impl s) = 0)
       ∨ (¬ is_pending slot (impl s) ∧ fulfilments slot (impl s) = 1))
  ∧ (∀ slot, slot ∈ abandoned (impl s) →
       ¬ is_pending slot (impl s) ∧ fulfilments slot (impl s) = 0
       ∧ fulfilments slot (Close (impl s)) = 0)
  ∧ pendingRequests (Close (impl s)) = ∅
  ∧ requestDeadlines (Close (impl s)) = ∅
  ∧ (∀ slot, slot < nextSlot (impl s) → slot ∉ abandoned (impl s) →
       fulfilments slot (Close (impl s)) = 1)
  ∧ (no_id_reuse ops (started errH reqH notH wake timeout cap) = true →
     abandoned (impl s) = []).
Proof.
  intros Hrun.
  pose proof (run_correlation_inv ops _ s
                (started_correlation_inv errH reqH notH wake timeout cap) Hrun) as Hinv.
  pose proof (Close_inv _ Hinv) as Hcl.
  assert (pendingRequests (Close (impl s)) = ∅
          ∧ requestDeadlines (Close (impl s)) = ∅
          ∧ nextSlot (Close (impl s)) = nextSlot (impl s)
          ∧ abandoned (Close (impl s)) = abandoned (impl s)) as (Hp & Hd & Hn & Ha)
    by apply Close_fields.
  assert (∀ slot, ¬ is_pending slot (Close (impl s))) as Hnp.
  { intros slot [idStr H]. rewrite Hp in H. by rewrite lookup_empty in H. }
  destruct Hinv as [Hdom Hinj Hslots]. destruct Hcl as [_ _ Hslots'].
  split; [done|]. split; [|split; [|split; [done|split; [done|split]]]].
  - intros slot Hlt Hab. specialize (Hslots slot). unfold slot_state in Hslots.
    destruct (Nat.ltb_spec slot (nextSlot (impl s))); [|lia].
    destruct Hslots as [(? & ? & _)|[(? & ? & _)|(_ & _ & ?)]]; [by left|by right|done].
  - intros slot Hab. pose proof (Hslots slot) as H. pose proof (Hslots' slot) as H'.
    unfold slot_state in H, H'. rewrite Hn, Ha in H'.
    destruct (slot <? nextSlot (impl s)).
    + destruct H as [(_ & _ & ?)|[(_ & _ & ?)|(? & ? & _)]]; [done|done|].
      destruct H' as [(? & _)|[(_ & _ & ?)|(_ & ? & _)]];
        [by destruct (Hnp slot)|done|done].
    + by destruct H as (_ & _ & ?).
  - intros slot Hlt Hab. specialize (Hslots' slot). unfold slot_state in Hslots'.
    rewrite Hn, Ha in Hslots'.
    destruct (Nat.ltb_spec slot (nextSlot (impl s))); [|lia].
    destruct Hslots' as [(? & _)|[(_ & ? & _)|(_ & _ & ?)]];
      [by destruct (Hnp slot)|done|done].
  - intros Hno. by rewrite (run_abandoned ops _ s Hno Hrun).
Qed.

(** C5, as the code has it: in every state the transport reaches,
    [queuedBytes] is the sum of the sizes of the queued frames plus the size
    of the frame the writer has dequeued and not yet accounted for, and it
    does not exceed [writeQueueMaxBytes]; so the sum over the queue does not
    exceed the cap either. *)
Theorem queued_bytes_accounting (errH reqH notH wake : bool) (timeout : Z) (cap : N)
    (ops : list Op) (s : System) :
  run ops (started errH reqH notH wake timeout cap) = Some s →
  queuedBytes (impl s)
  = (total_size (writeQueue (impl s))
     + match writerFrame s with Some frame => size frame | None => 0 end)%N
  ∧ (queuedBytes (impl s) ≤ writeQueueMaxBytes (impl s))%N
  ∧ (total_size (writeQueue (impl s)) ≤ writeQueueMaxBytes (impl s))%N.
Proof.
  intros Hrun.
  destruct (run_queue_inv cap ops (started errH reqH notH wake timeout cap) s)
    as (Hcap & Hacc & Hle); [|done|].
  - unfold queue_inv, accounted. simpl. repeat split; lia.
  - unfold accounted in Hacc. rewrite Hcap. repeat split; [done|done|lia].
Qed.

(** C6: whatever the message and the codec, [processMessage] calls no
    notification handler: it leaves the record of effects as it was (a
    response was completed, or the message was dropped) or adds the start of
    a request-handler thread; [handleNotification], which would make the
    call, is not reached from it. *)
Theorem processMessage_calls_no_notification_handler (message : bytes) (st : Impl) :
  events (processMessage message st) = events st
  ∨ ∃ request, events (processMessage message st)
               = events st ++ [RequestHandlerThread request].
Proof.
  unfold processMessage.
  destruct (if contains _ _ && contains _ _ then _ else _) as [request|];
    [destruct (requestHandler st); [right; by exists request|]|];
    (destruct (DeserializeResponse message);
       [left; apply handleResponse_events|by left]).
Qed.

(** C9: while [connected] is false, [SendRequest] returns a future that
    already holds a response without result and with the error
    (InternalError, "Transport not connected"); nothing is added to
    [pendingRequests] or [requestDeadlines], nothing is queued for writing,
    no promise is created and no effect leaves the object. *)
Theorem SendRequest_while_disconnected (request : JSONRPCRequest) (now : Z) (st : Impl) :
  connected st = false →
  (∃ resp, (SendRequest request now st).1 = FutureReady resp
           ∧ resp_result resp = None
           ∧ resp_error resp
             = Some (CreateErrorObject InternalError (lit "Transport not connected")))
  ∧ pendingRequests (SendRequest request now st).2 = pendingRequests st
  ∧ requestDeadlines (SendRequest request now st).2 = requestDeadlines st
  ∧ writeQueue (SendRequest request now st).2 = writeQueue st
  ∧ queuedBytes (SendRequest request now st).2 = queuedBytes st
  ∧ nextSlot (SendRequest request now st).2 = nextSlot st
  ∧ events (SendRequest request now st).2 = events st
  ∧ connected (SendRequest request now st).2 = false.
Proof.
  intros Hc. unfold SendRequest. rewrite Hc. simpl.
  split; [|done]. eexists. by repeat split.
Qed.

(** C10: while [connected] is false, the response [SendRequest] returns
    carries the id "req-" followed by the decimal form of the request
    counter after its increment (on 32 bits); the counter keeps that value;
    the response is the same whatever request was passed, so it differs from
    the id of the request unless that id happens to be this very string. *)
Theorem disconnected_response_has_generated_id (request : JSONRPCRequest) (now : Z)
    (st : Impl) :
  connected st = false →
  (∃ resp, (SendRequest request now st).1 = FutureReady resp
           ∧ resp_id resp
             = IdString (lit "req-"
                         ++ to_string ((requestCounter st + 1) mod uint_modulus)%N))
  ∧ requestCounter (SendRequest request now st).2
    = ((requestCounter st + 1) mod uint_modulus)%N
  ∧ (∀ request' now', SendRequest request' now' st = SendRequest request now st)
  ∧ (req_id request
     ≠ IdString (lit "req-" ++ to_string ((requestCounter st + 1) mod uint_modulus)%N) →
     ∀ resp, (SendRequest request now st).1 = FutureReady resp →
             resp_id resp ≠ req_id request).
Proof.
  intros Hc. unfold SendRequest. rewrite Hc. simpl.
  split; [by eexists|]. split; [done|]. split; [done|].
  intros Hne resp [= <-]. simpl. congruence.
Qed.

End Transport.

(** [handleNotification] is the only place that calls the notification
    handler. *)
Lemma handleNotification_calls_handler (notification : bytes) (st : Impl) :
  events (handleNotification notification st)
  = events st ++ (if notificationHandler st
                  then [NotificationHandlerCall notification] else []).
Proof.
  unfold handleNotification. destruct (notificationHandler st); simpl; [done|].
  by rewrite app_nil_r.
Qed.

(** A notification envelope, which is neither a request nor a response for
    the codec, is dropped by [processMessage]. *)
Example notification_is_dropped :
  @processMessage toyCodec
    (lit "{" ++ [DQUOTE] ++ lit "method" ++ [DQUOTE] ++ lit ":"
     ++ [DQUOTE] ++ lit "notifications/progress" ++ [DQUOTE] ++ lit "}") fresh
  = fresh.
Proof. vm_compute. reflexivity. Qed.

(** * Runs of the transport *)

(** C3 fails as stated: two requests sent with the same id "a" and then
    [Close].  The promise of the first request (number 0) was stored in
    [pendingRequests]; at the end it is stored no more and has received no
    value, neither from a response nor from the expiry sweep nor from
    [Close]. *)
Lemma reused_id_leaves_promise_without_value :
  ∃ s1 s,
    @run toyCodec [OpSendRequest request_a 0] (started true true true true 30000 2097152)
    = Some s1
    ∧ is_pending 0 (impl s1)
    ∧ @run toyCodec [OpSendRequest request_a 0; OpSendRequest request_a 1; OpClose]
        (started true true true true 30000 2097152) = Some s
    ∧ nextSlot (impl s) = 2
    ∧ pendingRequests (impl s) = ∅
    ∧ fulfilments 0 (impl s) = 0
    ∧ fulfilments 1 (impl s) = 1
    ∧ abandoned (impl s) = [0].
Proof.
  eexists. eexists.
  split; [vm_compute; reflexivity|].
  split; [exists (lit "a"); vm_compute; reflexivity|].
  split; [vm_compute; reflexivity|].
  repeat split; vm_compute; reflexivity.
Qed.

Lemma promise_fulfilled_once_witness :
  match @run toyCodec
          [OpSendRequest request_a 0; OpSendRequest request_7 5;
           OpSendRequest request_unnamed 9; OpMessage (lit "Ra");
           OpTimeout 30005; OpSendRequest request_a 40000]
          (started true true true true 30000 2097152) with
  | Some s =>
      (∀ slot, slot < nextSlot (impl s) → slot ∉ abandoned (impl s) →
         fulfilments slot (Close (impl s)) = 1)
      ∧ nextSlot (impl s) = 4
      ∧ fulfilments 0 (impl s) = 1 ∧ fulfilments 1 (impl s) = 1
      ∧ fulfilments 2 (impl s) = 0 ∧ fulfilments 3 (impl s) = 0
  | None => False
  end.
Proof.
  destruct (@run toyCodec _ _) as [s|] eqn:E.
  - destruct (@promise_fulfilled_once toyCodec true true true true 30000 2097152 _ s E)
      as (_ & _ & _ & _ & _ & H & _).
    split; [exact H|].
    vm_compute in E. injection E as <-. vm_compute. repeat split; reflexivity.
  - vm_compute in E. discriminate.
Defined.

(** C5 fails as stated: after one enqueue and the writer's dequeue the queue
    is empty, while [queuedBytes] still counts the 22 bytes of the frame the
    writer is working on. *)
Lemma queued_bytes_differ_from_queue_sum :
  ∃ s,
    @run toyCodec [OpEnqueue (lit "x"); OpWriterDequeue]
      (started true true true true 30000 2097152) = Some s
    ∧ writeQueue (impl s) = []
    ∧ total_size (writeQueue (impl s)) = 0%N
    ∧ queuedBytes (impl s) = 22%N.
Proof. eexists. split; [vm_compute; reflexivity|]. repeat split. Qed.

Lemma queued_bytes_accounting_witness :
  match @run toyCodec
          [OpEnqueue (lit "x"); OpSendRequest request_a 0; OpWriterDequeue;
           OpEnqueue (lit "yz"); OpWriterAccount; OpWriterDequeue]
          (started true true true true 30000 2097152) with
  | Some s =>
      queuedBytes (impl s)
      = (total_size (writeQueue (impl s))
         + match writerFrame s with Some frame => size frame | None => 0 end)%N
      ∧ (queuedBytes (impl s) ≤ writeQueueMaxBytes (impl s))%N
      ∧ (total_size (writeQueue (impl s)) ≤ writeQueueMaxBytes (impl s))%N
  | None => False
  end.
Proof.
  destruct (@run toyCodec _ _) as [s|] eqn:E.
  - exact (@queued_bytes_accounting toyCodec true true true true 30000 2097152 _ s E).
  - vm_compute in E. discriminate.
Defined.

Lemma SendRequest_while_disconnected_witness :
  (∃ resp, (@SendRequest toyCodec request_a 0 closed).1 = FutureReady resp
           ∧ resp_result resp = None
           ∧ resp_error resp
             = Some (CreateErrorObject InternalError (lit "Transport not connected")))
  ∧ pendingRequests (@SendRequest toyCodec request_a 0 closed).2 = pendingRequests closed
  ∧ writeQueue (@SendRequest toyCodec request_a 0 closed).2 = writeQueue closed.
Proof.
  destruct (@SendRequest_while_disconnected toyCodec request_a 0 closed)
    as (H1 & H2 & _ & H3 & _); [reflexivity|].
  split; [exact H1|]. split; [exact H2|exact H3].
Defined.

Lemma disconnected_response_has_generated_id_witness :
  (∃ resp, (@SendRequest toyCodec request_a 0 closed).1 = FutureReady resp
           ∧ resp_id resp = IdString (lit "req-1"))
  ∧ requestCounter (@SendRequest toyCodec request_a 0 closed).2 = 1%N.
Proof.
  destruct (@disconnected_response_has_generated_id toyCodec request_a 0 closed)
    as (H1 & H2 & _); [reflexivity|].
  split; [exact H1|exact H2].
Defined.

(** * More about the frame codec *)

Section CodecMore.

Lemma starts_with_sound (needle s : bytes) :
  starts_with needle s = true → s = needle ++ drop (length needle) s.
Proof.
  revert s. induction needle as [|a needle IH]; intros s H; [done|].
  destruct s as [|b s]; [done|]. simpl in H.
  apply andb_true_iff in H as [Hab H]. apply Ascii.eqb_eq in Hab as ->.
  simpl. f_equal. by apply IH.
Qed.

Lemma find_at_sound (needle s : bytes) (i j : nat) :
  find_at needle s i = Some j →
  ∃ pre post, s = pre ++ needle ++ post ∧ j = i + length pre.
Proof.
  revert i. induction s as [|c s IH]; intros i; rewrite find_at_eq.
  - destruct (starts_with needle []) eqn:E; [|done]. intros [= <-].
    exists [], (drop (length needle) []). split; [by apply starts_with_sound|simpl; lia].
  - destruct (starts_with needle (c :: s)) eqn:E.
    + intros [= <-]. exists [], (drop (length needle) (c :: s)).
      split; [by apply starts_with_sound|simpl; lia].
    + intros (pre & post & -> & ->)%IH. exists (c :: pre), post.
      split; [done|simpl; lia].
Qed.

Lemma headerLine_length_bound (l : bytes) (v : N) :
  headerLine l = LineLength v → (v ≤ MaxContentLength)%N.
Proof.
  unfold headerLine.
  destruct (find l (lit ":") 0); [|done].
  destruct (bytes_eqb _ _); [|done].
  destruct (stoull _) as [v64|]; [|done].
  destruct (N.ltb_spec MaxContentLength v64) as [H|H]; simpl; [done|].
  destruct (SIZE_MAX <? v64)%N; [done|]. by intros [= <-].
Qed.

Lemma scanHeaders_bound (fuel : nat) (buf : bytes) (headerEnd pos : nat)
    (cl cl' : N) (hl : bool) :
  (hl = true → (cl ≤ MaxContentLength)%N) →
  scanHeaders fuel buf headerEnd pos cl hl = ScanDone cl' true →
  (cl' ≤ MaxContentLength)%N.
Proof.
  revert pos cl hl. induction fuel as [|fuel IH]; intros pos cl hl Hcl; simpl.
  - intros [= <- ->]. by apply Hcl.
  - destruct (pos <? headerEnd); [|intros [= <- ->]; by apply Hcl].
    destruct (find buf crlf pos) as [eol|]; [|intros [= <- ->]; by apply Hcl].
    destruct (headerEnd <? eol); [intros [= <- ->]; by apply Hcl|].
    destruct (headerLine _) as [v|v|] eqn:E; [done| |].
    + apply IH. intros _. by eapply headerLine_length_bound.
    + by apply IH.
Qed.

(** X1: whatever the buffer holds, a frame returned by [extractFrame] is at
    most [MaxContentLength] bytes long and stood in the buffer right after
    the first separator: the buffer was a header region, the separator, the
    payload and then exactly what the buffer holds afterwards; the state is
    not touched. *)
Theorem extractFrame_sound (st st' : Impl) (buf buf' payload : bytes) :
  extractFrame st buf = (Some payload, buf', st') →
  st' = st
  ∧ (size payload ≤ MaxContentLength)%N
  ∧ ∃ header, buf = header ++ sep ++ payload ++ buf'.
Proof.
  unfold extractFrame. rewrite find_zero.
  destruct (find_at sep buf 0) as [headerEnd|] eqn:Hfind; [|done].
  apply find_at_sound in Hfind as (header & post & -> & ->). simpl "+".
  destruct (scanHeaders _ _ _ _ _ _) as [v|cl hl] eqn:Hscan; [done|].
  destruct hl; simpl negb; cbv iota; [|done].
  apply scanHeaders_bound in Hscan; [|done].
  destruct (_ <? cl)%N; [done|].
  destruct (N.ltb_spec (size (header ++ sep ++ post))
              (N.of_nat (length header + 4) + cl)) as [|Hlen]; [done|].
  intros [= <- <- <-].
  unfold substr, erase.
  replace (length header + 4) with (length (header ++ sep))
    by (by rewrite length_app).
  replace (N.to_nat (N.of_nat (length (header ++ sep)) + cl))
    with (length (header ++ sep) + N.to_nat cl) by lia.
  replace (header ++ CR :: LF :: CR :: LF :: post) with ((header ++ sep) ++ post)
    by (by rewrite <- app_assoc).
  rewrite drop_app_length, drop_app_add.
  unfold size in *. rewrite !length_app in Hlen. change (length sep) with 4 in Hlen.
  split; [done|]. split.
  - rewrite length_take. lia.
  - exists header. by rewrite take_drop.
Qed.

Lemma extractFrame_sound_witness :
  (size (lit "hello") ≤ MaxContentLength)%N
  ∧ ∃ header,
      lit "X-A: 1" ++ crlf ++ lit "content-length:  5" ++ sep ++ lit "hello" ++ lit "tail"
      = header ++ sep ++ lit "hello" ++ lit "tail".
Proof.
  destruct (extractFrame_sound fresh fresh
              (lit "X-A: 1" ++ crlf ++ lit "content-length:  5" ++ sep
               ++ lit "hello" ++ lit "tail")
              (lit "tail") (lit "hello")) as (_ & H1 & H2).
  - vm_compute. reflexivity.
  - split; [exact H1|exact H2].
Defined.

(** *** Header names, blanks and further headers *)

Lemma foldLines_app (a b : list bytes) (cl : N) (hl : bool) :
  foldLines (a ++ b) cl hl =
  match foldLines a cl hl with
  | ScanTooLarge v => ScanTooLarge v
  | ScanDone cl' hl' => foldLines b cl' hl'
  end.
Proof.
  revert cl hl. induction a as [|l a IH]; intros cl hl; [done|].
  simpl. destruct (headerLine l); [done|apply IH|apply IH].
Qed.

Lemma foldLines_no_too_large (lines : list bytes) (cl : N) (hl : bool) :
  Forall (fun l => ∀ v, headerLine l ≠ LineTooLarge v) lines →
  ∃ cl' hl', foldLines lines cl hl = ScanDone cl' hl'.
Proof.
  intros H. revert cl hl. induction H as [|l ls Hl _ IH]; intros cl hl; simpl; [eauto|].
  destruct (headerLine l) as [v| |]; [by destruct (Hl v)|apply IH|apply IH].
Qed.

Lemma bytes_eqb_refl (a : bytes) : bytes_eqb a a = true.
Proof. induction a as [|c a IH]; [done|]. simpl. by rewrite Ascii.eqb_refl. Qed.

Lemma ltrim_blanks (ws s : bytes) : blanks ws → ltrim (ws ++ s) = ltrim s.
Proof. induction 1 as [|c ws [Hc _] _ IH]; [done|]. simpl. by rewrite Hc. Qed.

(** A name that reads "content-length" in lower case holds no colon and no
    carriage return. *)
Lemma name_chars (name : bytes) (c : ascii) :
  map tolower name = lit "content-length" → tolower c = c →
  c ∉ lit "content-length" → c ∉ name.
Proof.
  intros Hn Hc Hnot Hin. apply Hnot. rewrite <- Hn, <- Hc.
  by apply list_elem_of_fmap_2.
Qed.

Lemma headerLine_any_case (name ws : bytes) (n : N) :
  map tolower name = lit "content-length" → blanks ws → (n ≤ MaxContentLength)%N →
  headerLine (name ++ lit ":" ++ ws ++ to_string n) = LineLength n.
Proof.
  intros Hn Hws Hle. unfold headerLine.
  assert (Forall (fun x => x ≠ ":"%char) name) as Hcolon.
  { apply Forall_forall. intros x Hx ->. revert Hx.
    apply (name_chars name ":"%char Hn); [done|].
    rewrite list_elem_of_In. simpl. intros H.
    repeat (destruct H as [H|H]; [discriminate|]). done. }
  rewrite find_zero. change (lit ":") with [":"%char] at 1.
  rewrite find_at_skip, find_at_here by done. simpl "+".
  unfold substr. rewrite drop_0, take_app_length, Hn, bytes_eqb_refl.
  replace (drop (length name + 1) (name ++ lit ":" ++ ws ++ to_string n))
    with (ws ++ to_string n).
  2:{ replace (length name + 1) with (length (name ++ lit ":"))
        by (rewrite length_app; done).
      by rewrite (app_assoc name), drop_app_length. }
  rewrite ltrim_blanks, ltrim_digits by (done || apply to_string_digits).
  unfold MaxContentLength in *.
  rewrite stoull_to_string by (unfold ULLONG_MAX; lia).
  destruct (N.ltb_spec 1048576 n); [lia|].
  destruct (N.ltb_spec SIZE_MAX n) as [H'|_]; [unfold SIZE_MAX in H'; lia|done].
Qed.

Lemma header_text_any_case (name ws : bytes) (n : N) :
  map tolower name = lit "content-length" → blanks ws →
  header_text (name ++ lit ":" ++ ws ++ to_string n).
Proof.
  intros Hn Hws. split.
  - intros H. apply app_eq_nil in H as [_ H]. discriminate.
  - apply Forall_app. split; [|apply Forall_app; split; [|apply Forall_app; split]].
    + apply Forall_forall. intros x Hx ->. revert Hx.
      apply (name_chars name CR Hn); [done|].
      rewrite list_elem_of_In. simpl. intros H.
      repeat (destruct H as [H|H]; [discriminate|]). done.
    + repeat constructor. discriminate.
    + eapply Forall_impl; [exact Hws|]. by intros c [_ ?].
    + apply is_digit_not_CR, to_string_digits.
Qed.

(** X2: the Content-Length header is recognised whatever the case of its
    name and however many spaces or tabs stand in front of its value; header
    lines before it that do not announce a too large body and lines after it
    that yield no length do not matter (of several Content-Length lines the
    last one counts).  With such a header region in front of the payload,
    [extractFrame] returns the payload and keeps what follows it. *)
Theorem extractFrame_header_tolerance (st : Impl) (name ws : bytes)
    (before after : list bytes) (payload suffix : bytes) :
  map tolower name = lit "content-length" →
  blanks ws →
  (size payload ≤ MaxContentLength)%N →
  Forall header_text before →
  Forall (fun l => ∀ v, headerLine l ≠ LineTooLarge v) before →
  Forall header_text after →
  Forall (fun l => headerLine l = LineIgnored) after →
  (N.of_nat (length (join_lines
      (before ++ [name ++ lit ":" ++ ws ++ to_string (size payload)] ++ after)))
   < 4611686018427387904)%N →
  extractFrame st
    (join_lines (before ++ [name ++ lit ":" ++ ws ++ to_string (size payload)] ++ after)
     ++ sep ++ payload ++ suffix)
  = (Some payload, suffix, st).
Proof.
  intros Hn Hws Hle Hb1 Hb2 Ha1 Ha2 Hsmall.
  rewrite extractFrame_lines.
  2:{ apply Forall_app. split; [done|]. constructor; [|done].
      by apply header_text_any_case. }
  rewrite foldLines_app.
  destruct (foldLines_no_too_large before 0%N false Hb2) as (cl' & hl' & ->).
  cbn [app foldLines]. rewrite headerLine_any_case by done.
  rewrite foldLines_ignored by done. cbn [negb]. cbv iota zeta.
  unfold MaxContentLength, SIZE_MAX in *.
  destruct (N.ltb_spec (18446744073709551615 - N.of_nat (length (join_lines
              (before ++ (name ++ lit ":" ++ ws ++ to_string (size payload)) :: after)) + 4))
              (size payload)) as [Hbad|_].
  { cbn [app] in Hsmall. lia. }
  assert (size (payload ++ suffix) = (size payload + size suffix)%N) as Hsz
    by (unfold size; rewrite length_app; lia).
  destruct (N.ltb_spec (size (payload ++ suffix)) (size payload)); [lia|].
  unfold size. rewrite Nat2N.id.
  by rewrite take_app_length, drop_app_length.
Qed.

Lemma extractFrame_header_tolerance_witness :
  extractFrame fresh
    (join_lines ([lit "Content-Length: 9"; lit "Content-Type: x"]
                 ++ [lit "CONTENT-length" ++ lit ":" ++ [" "%char; TAB] ++ to_string (size (lit "hi"))]
                 ++ [lit "X-Last"])
     ++ sep ++ lit "hi" ++ lit "more")
  = (Some (lit "hi"), lit "more", fresh).
Proof.
  apply extractFrame_header_tolerance.
  - vm_compute. reflexivity.
  - repeat constructor; discriminate.
  - vm_compute. discriminate.
  - repeat constructor; vm_compute; discriminate.
  - repeat constructor; intros v; vm_compute; discriminate.
  - repeat constructor; vm_compute; discriminate.
  - repeat constructor.
  - vm_compute. reflexivity.
Defined.

End CodecMore.

(** * More about the reader *)

Section ReaderMore.

Variable process : bytes → Impl → Impl.

(** X3: [drainFrames] stops at a malformed header region: the region is
    dropped, but a complete frame that already stands behind it in the
    buffer is not delivered by this call; it is delivered first thing when
    the next bytes arrive. *)
Theorem drainFrames_stops_at_framing_error (st : Impl) (lines : list bytes)
    (payload chunk : bytes) :
  Forall header_text lines →
  Forall (fun l => headerLine l = LineIgnored) lines →
  (size payload ≤ MaxContentLength)%N →
  connected st = true →
  drainFrames process (join_lines lines ++ sep ++ makeFrame payload) st
  = (makeFrame payload, st)
  ∧ onData process chunk (makeFrame payload) st
    = onData process chunk [] (process payload st).
Proof.
  intros Hl Hi Hp Hc. split.
  - unfold drainFrames. cbn [drainLoop]. rewrite Hc.
    by rewrite extractFrame_lines, foldLines_ignored.
  - unfold onData, drainFrames. rewrite app_nil_l.
    transitivity (drainLoop (length (makeFrame payload ++ chunk)) process chunk
                    (process payload st)).
    + cbn [drainLoop]. by rewrite Hc, extractFrame_makeFrame.
    + apply drainLoop_fuel; rewrite ?length_app; [|lia].
      pose proof (makeFrame_length payload). lia.
Qed.


End ReaderMore.

Lemma drainFrames_stops_at_framing_error_witness :
  drainFrames record_payload
    (join_lines [lit "Content-Type: json"] ++ sep ++ makeFrame (lit "ok")) fresh
  = (makeFrame (lit "ok"), fresh).
Proof.
  destruct (drainFrames_stops_at_framing_error record_payload fresh
              [lit "Content-Type: json"] (lit "ok") (lit "x")) as [H _].
  - repeat constructor; vm_compute; discriminate.
  - repeat constructor.
  - vm_compute. discriminate.
  - reflexivity.
  - exact H.
Defined.


(** ** [readFrame] *)

Section ReadFrame.

Lemma getline_line (h rest : bytes) :
  Forall (fun c => c ≠ LF) h → getline (h ++ LF :: rest) = (h, rest, true).
Proof.
  induction 1 as [|c h Hc _ IH]; simpl.
  - done.
  - destruct (Ascii.eqb c LF) eqn:E; [apply Ascii.eqb_eq in E; done|].
    by rewrite IH.
Qed.

Lemma strip_cr_snoc (h : bytes) : strip_cr (h ++ [CR]) = h.
Proof.
  unfold strip_cr. rewrite last_snoc, Ascii.eqb_refl, length_app. simpl.
  replace (length h + 1 - 1) with (length h) by lia. apply take_app_length.
Qed.

Lemma digits_last (fuel : nat) (n : N) :
  last (digits (S fuel) n) = Some (digit_char (n mod 10)%N).
Proof.
  cbn [digits]. destruct (N.ltb_spec n 10).
  - simpl. by rewrite N.mod_small.
  - by rewrite last_snoc.
Qed.

Lemma frameHeader_last (n : N) :
  last (frameHeader n) = Some (digit_char (n mod 10)%N).
Proof.
  unfold frameHeader, to_string.
  pose proof (digits_last 19 n) as H.
  destruct (digits 20 n) as [|c t] eqn:E; [done|].
  rewrite last_app. by rewrite H.
Qed.

Lemma strip_cr_frameHeader (n : N) : strip_cr (frameHeader n) = frameHeader n.
Proof.
  unfold strip_cr. rewrite frameHeader_last.
  assert ((n mod 10 < 10)%N) as Hd by (apply N.mod_lt; lia).
  destruct (Ascii.eqb (digit_char (n mod 10)) CR) eqn:E; [|done].
  apply Ascii.eqb_eq in E. by destruct (digit_char_not_CR _ Hd).
Qed.

Lemma digit_char_not_LF (d : N) : (d < 10)%N → digit_char d ≠ LF.
Proof.
  intros H.
  destruct (digit_cases _ H) as [->|[->|[->|[->|[->|[->|[->|[->|[->| ->]]]]]]]]];
    discriminate.
Qed.

Lemma frameHeader_no_LF (n : N) : Forall (fun c => c ≠ LF) (frameHeader n).
Proof.
  unfold frameHeader. apply Forall_app. split.
  - repeat (constructor; [discriminate|]). constructor.
  - eapply Forall_impl; [apply to_string_digits|].
    intros c [d [Hd ->]]. by apply digit_char_not_LF.
Qed.

Lemma readFrameLine_content_length (v : bytes) :
  readFrameLine (lit "Content-Length: " ++ v) =
  match stoull (ltrim v) with
  | Some v64 =>
      if (MaxContentLength <? v64)%N || (SIZE_MAX <? v64)%N
      then ReadTooLarge else ReadLength v64
  | None => ReadInvalid
  end.
Proof. reflexivity. Qed.

Lemma readFrameLine_frameHeader (n : N) :
  (n ≤ MaxContentLength)%N → readFrameLine (frameHeader n) = ReadLength n.
Proof.
  intros Hn. unfold frameHeader.
  rewrite readFrameLine_content_length, ltrim_digits by apply to_string_digits.
  unfold MaxContentLength in *.
  rewrite stoull_to_string by (unfold ULLONG_MAX; lia).
  destruct (N.ltb_spec 1048576 n); [lia|].
  destruct (N.ltb_spec SIZE_MAX n) as [H'|_]; [unfold SIZE_MAX in H'; lia|done].
Qed.

Lemma readHeaders_frame (fuel : nat) (n : N) (eol1 eol2 rest : bytes) (st : Impl) :
  (n ≤ MaxContentLength)%N → line_end eol1 → line_end eol2 →
  readHeaders (S (S fuel)) (frameHeader n ++ eol1 ++ eol2 ++ rest) true 0%N false st
  = HeadersDone rest true n true.
Proof.
  intros Hn H1 H2.
  assert (∃ tl c, frameHeader n = c :: tl) as (tl & c & Hh)
    by (unfold frameHeader; simpl; eauto).
  assert (getline (frameHeader n ++ eol1 ++ eol2 ++ rest)
          = (frameHeader n ++ (if bytes_eqb eol1 crlf then [CR] else []),
             eol2 ++ rest, true)) as Hg1.
  { destruct H1 as [-> | ->]; cbn [bytes_eqb].
    - rewrite app_nil_r. apply getline_line, frameHeader_no_LF.
    - change (frameHeader n ++ crlf ++ eol2 ++ rest)
        with (frameHeader n ++ [CR] ++ LF :: eol2 ++ rest).
      rewrite app_assoc, getline_line; [by rewrite bytes_eqb_refl|].
      apply Forall_app. split; [apply frameHeader_no_LF|].
      repeat constructor. discriminate. }
  assert (strip_cr (frameHeader n ++ (if bytes_eqb eol1 crlf then [CR] else []))
          = frameHeader n) as Hs1.
  { destruct (bytes_eqb eol1 crlf); [apply strip_cr_snoc|].
    rewrite app_nil_r. apply strip_cr_frameHeader. }
  cbn [readHeaders negb orb].
  replace (is_empty (frameHeader n ++ eol1 ++ eol2 ++ rest)) with false
    by (by rewrite Hh).
  rewrite Hg1, Hs1.
  replace (is_empty (frameHeader n)) with false by (by rewrite Hh).
  rewrite readFrameLine_frameHeader by done.
  destruct H2 as [-> | ->]; reflexivity.
Qed.

(** X5: [readFrame] reads back what [makeFrame] writes, and it takes a bare
    line feed for a line end as well as "\r\n", in the header line and in
    the empty line alike: the payload is returned and the input left unread
    is what followed it. *)
Theorem readFrame_after_encode (st : Impl) (payload suffix eol1 eol2 : bytes) :
  (size payload ≤ MaxContentLength)%N →
  line_end eol1 → line_end eol2 →
  readFrame st (makeFrame payload ++ suffix) = (Some payload, suffix, st)
  ∧ readFrame st (frameHeader (size payload) ++ eol1 ++ eol2 ++ payload ++ suffix)
    = (Some payload, suffix, st).
Proof.
  intros Hn H1 H2.
  assert (∀ e1 e2, line_end e1 → line_end e2 →
          readFrame st (frameHeader (size payload) ++ e1 ++ e2 ++ payload ++ suffix)
          = (Some payload, suffix, st)) as Hgen.
  { clear eol1 eol2 H1 H2. intros eol1 eol2 H1 H2. unfold readFrame.
    assert (∃ k, length (frameHeader (size payload) ++ eol1 ++ eol2 ++ payload ++ suffix)
                 = S k) as [k ->].
    { rewrite length_app. unfold frameHeader. rewrite length_app. simpl. eauto. }
    rewrite readHeaders_frame by done. cbn [negb].
    unfold MaxContentLength in *.
    destruct (N.ltb_spec 1048576 (size payload)); [lia|].
    assert (size (payload ++ suffix) = (size payload + size suffix)%N) as Hsz
      by (unfold size; rewrite length_app; lia).
    destruct (N.ltb_spec (size (payload ++ suffix)) (size payload)); [lia|].
    unfold size. rewrite Nat2N.id.
    by rewrite take_app_length, drop_app_length. }
  split; [|by apply Hgen].
  rewrite makeFrame_eq. cbn [join_lines]. change sep with (crlf ++ crlf).
  rewrite <- !app_assoc. apply Hgen; by right.
Qed.

Lemma readFrame_after_encode_witness :
  readFrame fresh (makeFrame (lit "hello") ++ lit "next") = (Some (lit "hello"), lit "next", fresh)
  ∧ readFrame fresh (frameHeader (size (lit "hello")) ++ [LF] ++ crlf ++ lit "hello" ++ lit "next")
    = (Some (lit "hello"), lit "next", fresh).
Proof.
  apply readFrame_after_encode.
  - vm_compute. discriminate.
  - by left.
  - by right.
Defined.

End ReadFrame.

(** * More about the write queue and the writer *)

Section WriterMore.

Lemma enqueueFrame_within (payload : bytes) (st : Impl) :
  (queuedBytes st + size (makeFrame payload) ≤ writeQueueMaxBytes st)%N →
  (writeQueueMaxBytes st < size_modulus)%N →
  (enqueueFrame payload st).2
  = emit NotifyWriteOne
      (set_writeQueue (writeQueue st ++ [makeFrame payload])
         (queuedBytes st + size (makeFrame payload))%N st).
Proof.
  intros Hle Hcap. unfold enqueueFrame. rewrite size_add_fits by lia.
  destruct (N.ltb_spec (writeQueueMaxBytes st)
              (queuedBytes st + size (makeFrame payload))); [lia|done].
Qed.

Lemma enqueueAll_queue (payloads : list bytes) (st : Impl) :
  queuedBytes st = total_size (writeQueue st) →
  (total_size (writeQueue st) + total_size (map makeFrame payloads)
   ≤ writeQueueMaxBytes st)%N →
  (writeQueueMaxBytes st < size_modulus)%N →
  writeQueue (enqueueAll payloads st) = writeQueue st ++ map makeFrame payloads
  ∧ queuedBytes (enqueueAll payloads st)
    = total_size (writeQueue st ++ map makeFrame payloads)
  ∧ connected (enqueueAll payloads st) = connected st.
Proof.
  revert st. induction payloads as [|p ps IH]; intros st Hq Hle Hcap.
  - simpl. by rewrite app_nil_r.
  - change (total_size (map makeFrame (p :: ps)))
      with (size (makeFrame p) + total_size (map makeFrame ps))%N in Hle.
    unfold enqueueAll. cbn [foldl]. fold (enqueueAll ps (enqueueFrame p st).2).
    rewrite enqueueFrame_within by lia.
    destruct (IH (emit NotifyWriteOne
                    (set_writeQueue (writeQueue st ++ [makeFrame p])
                       (queuedBytes st + size (makeFrame p))%N st)))
      as (H1 & H2 & H3).
    + simpl. rewrite total_size_app. lia.
    + simpl. rewrite total_size_app. lia.
    + done.
    + simpl in H1, H2, H3. rewrite H1, H2, H3.
      by rewrite <- !app_assoc.
Qed.

Lemma takeFrames_queue (q : list bytes) (st : Impl) :
  writeQueue st = q → queuedBytes st = total_size q →
  ∃ st', takeFrames (length q) st = (q, st')
         ∧ writeQueue st' = [] ∧ queuedBytes st' = 0%N
         ∧ connected st' = connected st ∧ events st' = events st.
Proof.
  revert st. induction q as [|f q IH]; intros st Hq Hb.
  - exists st. by repeat split.
  - cbn [length takeFrames]. unfold dequeueNextFrame. rewrite Hq. cbn [is_empty negb].
    rewrite orb_true_r, andb_false_r. cbn [negb].
    change (total_size (f :: q)) with (size f + total_size q)%N in Hb.
    destruct (IH (accountWritten (size f) (set_writeQueue q (queuedBytes st) st)))
      as (st' & Ht & H1 & H2 & H3 & H4).
    + unfold accountWritten. simpl. by destruct (_ <=? _)%N.
    + unfold accountWritten. simpl.
      destruct (N.leb_spec (size f) (queuedBytes st)); simpl; lia.
    + rewrite Ht. exists st'. repeat split; try done.
      * rewrite H3. unfold accountWritten. simpl. by destruct (_ <=? _)%N.
      * rewrite H4. unfold accountWritten. simpl. by destruct (_ <=? _)%N.
Qed.

(** X6: the write queue is first in, first out, and its accounting comes
    back to zero: payloads enqueued on an empty queue that together fit the
    cap are all accepted, the queue then holds their frames in the order of
    the calls, and the writer takes them out in that order, leaving an empty
    queue and [queuedBytes] at zero. *)
Theorem write_queue_fifo (payloads : list bytes) (st : Impl) :
  writeQueue st = [] → queuedBytes st = 0%N →
  (total_size (map makeFrame payloads) ≤ writeQueueMaxBytes st)%N →
  (writeQueueMaxBytes st < size_modulus)%N →
  writeQueue (enqueueAll payloads st) = map makeFrame payloads
  ∧ connected (enqueueAll payloads st) = connected st
  ∧ ∃ st', takeFrames (length payloads) (enqueueAll payloads st)
           = (map makeFrame payloads, st')
           ∧ writeQueue st' = [] ∧ queuedBytes st' = 0%N.
Proof.
  intros Hq Hb Hle Hcap.
  destruct (enqueueAll_queue payloads st) as (H1 & H2 & H3).
  - by rewrite Hq, Hb.
  - rewrite Hq. simpl. lia.
  - done.
  - rewrite Hq in H1, H2. simpl in H1, H2. split; [done|]. split; [done|].
    destruct (takeFrames_queue (map makeFrame payloads) (enqueueAll payloads st) H1 H2)
      as (st' & Ht & Hq' & Hb' & _).
    rewrite length_map in Ht. by exists st'.
Qed.

Lemma write_queue_fifo_witness :
  writeQueue (enqueueAll [lit "a"; []; lit "bc"] fresh)
  = map makeFrame [lit "a"; []; lit "bc"]
  ∧ ∃ st', takeFrames 3 (enqueueAll [lit "a"; []; lit "bc"] fresh)
           = (map makeFrame [lit "a"; []; lit "bc"], st')
           ∧ writeQueue st' = [] ∧ queuedBytes st' = 0%N.
Proof.
  destruct (write_queue_fifo [lit "a"; []; lit "bc"] fresh) as (H1 & _ & H2).
  - reflexivity.
  - reflexivity.
  - vm_compute. discriminate.
  - vm_compute. reflexivity.
  - split; [exact H1|exact H2].
Defined.

(** ** One frame on the writer thread *)





(** ** Replies and notifications *)

(** X8: the reply of a request-handler thread always carries the id of the
    request, whatever the handler returned; a null pointer and an exception
    become InternalError responses; the thread never touches the pending
    requests; and when the frame fits the queue, the serialized reply is
    queued behind what was there. *)
Theorem requestThread_reply (serializeResponse : JSONRPCResponse → bytes)
    (req : JSONRPCRequest) (outcome : HandlerOutcome) (st : Impl) :
  (queuedBytes st + size (makeFrame (serializeResponse (handlerResponse req outcome)))
   ≤ writeQueueMaxBytes st)%N →
  (writeQueueMaxBytes st < size_modulus)%N →
  resp_id (handlerResponse req outcome) = req_id req
  ∧ ((∀ resp, outcome ≠ HandlerReturned (Some resp)) →
     resp_result (handlerResponse req outcome) = None
     ∧ ∃ msg, resp_error (handlerResponse req outcome)
              = Some (CreateErrorObject InternalError msg))
  ∧ corr (requestThread serializeResponse req outcome st) = corr st
  ∧ writeQueue (requestThread serializeResponse req outcome st)
    = writeQueue st ++ [makeFrame (serializeResponse (handlerResponse req outcome))].
Proof.
  intros Hle Hcap. split; [by destruct outcome as [[r|]|w]|]. split.
  - intros Hne. destruct outcome as [[r|]|w]; [by destruct (Hne r)|eauto..].
  - unfold requestThread. split; [apply enqueueFrame_corr|].
    by rewrite enqueueFrame_within.
Qed.

Lemma requestThread_reply_witness :
  resp_id (handlerResponse request_7 (HandlerThrew (lit "boom"))) = IdInt 7
  ∧ writeQueue (requestThread (fun r => idKey (resp_id r)) request_7
                  (HandlerThrew (lit "boom")) fresh)
    = [makeFrame (lit "7")].
Proof.
  destruct (requestThread_reply (fun r => idKey (resp_id r)) request_7
              (HandlerThrew (lit "boom")) fresh) as (H1 & _ & _ & H2).
  - vm_compute. discriminate.
  - vm_compute. reflexivity.
  - split; [exact H1|exact H2].
Defined.

End WriterMore.

(** * More about requests *)

Section RequestsMore.

Context `{codec : JSONCodec}.

Lemma enqueueFrame_over (payload : bytes) (st : Impl) :
  (queuedBytes st + size (makeFrame payload) < size_modulus)%N →
  (writeQueueMaxBytes st < queuedBytes st + size (makeFrame payload))%N →
  (enqueueFrame payload st).2
  = emit NotifyWriteAll
      (signalWakeup
         (set_connected false
            (callErrorHandler (lit "StdioTransport: write queue overflow") st))).
Proof.
  intros Hfit Hover. unfold enqueueFrame. rewrite size_add_fits by done.
  destruct (N.ltb_spec (writeQueueMaxBytes st)
              (queuedBytes st + size (makeFrame payload))); [done|lia].
Qed.






(** ** The expiry sweep *)

Lemma expireOne_fields (st : Impl) (idStr : bytes) :
  pendingRequests (expireOne st idStr) = delete idStr (pendingRequests st)
  ∧ requestDeadlines (expireOne st idStr) = delete idStr (requestDeadlines st)
  ∧ fulfilled (expireOne st idStr)
    = fulfilled st
      ++ match pendingRequests st !! idStr with
         | Some slot =>
             [{| ful_slot := slot; ful_cause := ByDeadline;
                 ful_value := errorResponse idStr (lit "Request timeout") |}]
         | None => []
         end.
Proof.
  unfold expireOne. destruct (pendingRequests st !! idStr) eqn:E; simpl.
  - done.
  - by rewrite delete_id, app_nil_r.
Qed.

Lemma foldl_expireOne_lookup (ids : list bytes) (st : Impl) (k : bytes) :
  (k ∈ ids →
   pendingRequests (foldl expireOne st ids) !! k = None
   ∧ requestDeadlines (foldl expireOne st ids) !! k = None)
  ∧ (k ∉ ids →
     pendingRequests (foldl expireOne st ids) !! k = pendingRequests st !! k
     ∧ requestDeadlines (foldl expireOne st ids) !! k = requestDeadlines st !! k).
Proof.
  revert st. induction ids as [|i ids IH]; intros st.
  - split; [by intros ?%elem_of_nil|done].
  - cbn [foldl]. destruct (expireOne_fields st i) as (Hp & Hd & _).
    destruct (IH (expireOne st i)) as [IH1 IH2]. split.
    + intros Hin. destruct (decide (k ∈ ids)) as [Hk|Hk]; [by apply IH1|].
      apply elem_of_cons in Hin as [->|?]; [|done].
      destruct (IH2 Hk) as [-> ->]. by rewrite Hp, Hd, !lookup_delete_eq.
    + intros Hnot. apply not_elem_of_cons in Hnot as [Hne Hnot].
      destruct (IH2 Hnot) as [-> ->].
      by rewrite Hp, Hd, !lookup_delete_ne.
Qed.

Lemma foldl_expireOne_grows (ids : list bytes) (st : Impl) (f : Fulfilment) :
  f ∈ fulfilled st → f ∈ fulfilled (foldl expireOne st ids).
Proof.
  revert st. induction ids as [|i ids IH]; intros st Hf; [done|].
  cbn [foldl]. apply IH. destruct (expireOne_fields st i) as (_ & _ & ->).
  apply elem_of_app. by left.
Qed.

Lemma foldl_expireOne_fulfils (ids : list bytes) (st : Impl) (k : bytes) (slot : nat) :
  k ∈ ids → pendingRequests st !! k = Some slot →
  {| ful_slot := slot; ful_cause := ByDeadline;
     ful_value := errorResponse k (lit "Request timeout") |}
  ∈ fulfilled (foldl expireOne st ids).
Proof.
  revert st. induction ids as [|i ids IH]; intros st Hin Hk; [by apply elem_of_nil in Hin|].
  cbn [foldl]. destruct (expireOne_fields st i) as (Hp & _ & Hf).
  destruct (decide (k = i)) as [->|Hne].
  - apply foldl_expireOne_grows. rewrite Hf, Hk.
    apply elem_of_app. right. by apply list_elem_of_singleton.
  - apply elem_of_cons in Hin as [?|Hin]; [done|].
    apply IH; [done|]. by rewrite Hp, lookup_delete_ne.
Qed.

Lemma foldl_expireOne_only (ids : list bytes) (st : Impl) (f : Fulfilment) :
  f ∈ fulfilled (foldl expireOne st ids) →
  f ∈ fulfilled st
  ∨ ∃ k, k ∈ ids ∧ pendingRequests st !! k = Some (ful_slot f)
         ∧ f = {| ful_slot := ful_slot f; ful_cause := ByDeadline;
                  ful_value := errorResponse k (lit "Request timeout") |}.
Proof.
  revert st. induction ids as [|i ids IH]; intros st Hf; [by left|].
  cbn [foldl] in Hf. destruct (expireOne_fields st i) as (Hp & _ & Hfi).
  apply IH in Hf as [Hf|(k & Hk & Hlk & Heq)].
  - rewrite Hfi in Hf. apply elem_of_app in Hf as [Hf|Hf]; [by left|].
    right. exists i. destruct (pendingRequests st !! i) as [slot|] eqn:E.
    + apply list_elem_of_singleton in Hf as ->. simpl.
      split; [by left|done].
    + by apply elem_of_nil in Hf.
  - right. exists k. rewrite Hp in Hlk.
    apply lookup_delete_Some in Hlk as [_ Hlk].
    split; [by right|done].
Qed.

Lemma expired_ids (deadlines : gmap bytes Z) (now : Z) (k : bytes) :
  k ∈ map fst (List.filter (fun kv : bytes * Z => (kv.2 <=? now)%Z) (map_to_list deadlines))
  ↔ ∃ d, deadlines !! k = Some d ∧ (d ≤ now)%Z.
Proof.
  rewrite list_elem_of_fmap. split.
  - intros ([k' d] & -> & Hin). apply list_elem_of_In, List.filter_In in Hin as [Hin Hle].
    apply list_elem_of_In, elem_of_map_to_list in Hin. simpl in *.
    exists d. split; [done|]. by apply Z.leb_le.
  - intros (d & Hd & Hle). exists (k, d). split; [done|].
    apply list_elem_of_In, List.filter_In. split.
    + by apply list_elem_of_In, elem_of_map_to_list.
    + by apply Z.leb_le.
Qed.

(** X10: the expiry sweep at time [now] removes from both maps exactly the
    requests whose deadline is not after [now], and gives the promise of
    each of them an InternalError "Request timeout" response that carries
    the request's key; a request with a later deadline is left alone; and
    the sweep gives no other promise a value. *)
Theorem consumeExpired_expires_exactly (st : Impl) (now : Z) :
  (∀ idStr d, requestDeadlines st !! idStr = Some d → (d ≤ now)%Z →
     pendingRequests (consumeExpired now st) !! idStr = None
     ∧ requestDeadlines (consumeExpired now st) !! idStr = None
     ∧ ∀ slot, pendingRequests st !! idStr = Some slot →
         {| ful_slot := slot; ful_cause := ByDeadline;
            ful_value := errorResponse idStr (lit "Request timeout") |}
         ∈ fulfilled (consumeExpired now st))
  ∧ (∀ idStr, (∀ d, requestDeadlines st !! idStr = Some d → (now < d)%Z) →
       pendingRequests (consumeExpired now st) !! idStr = pendingRequests st !! idStr
       ∧ requestDeadlines (consumeExpired now st) !! idStr
         = requestDeadlines st !! idStr)
  ∧ (∀ f, f ∈ fulfilled (consumeExpired now st) →
       f ∈ fulfilled st
       ∨ ∃ idStr d, requestDeadlines st !! idStr = Some d ∧ (d ≤ now)%Z
                    ∧ pendingRequests st !! idStr = Some (ful_slot f)
                    ∧ ful_cause f = ByDeadline
                    ∧ ful_value f = errorResponse idStr (lit "Request timeout")).
Proof.
  unfold consumeExpired.
  set (ids := map fst (List.filter (fun kv : bytes * Z => (kv.2 <=? now)%Z)
                         (map_to_list (requestDeadlines st)))).
  split; [|split].
  - intros idStr d Hd Hle.
    assert (idStr ∈ ids) as Hin by (apply expired_ids; eauto).
    destruct (foldl_expireOne_lookup ids st idStr) as [H1 _].
    destruct (H1 Hin) as [-> ->]. repeat split; try done.
    intros slot Hs. by apply foldl_expireOne_fulfils.
  - intros idStr Hlate.
    assert (idStr ∉ ids) as Hnot.
    { intros (d & Hd & Hle)%expired_ids. specialize (Hlate d Hd). lia. }
    destruct (foldl_expireOne_lookup ids st idStr) as [_ H2]. by apply H2.
  - intros f Hf. apply foldl_expireOne_only in Hf as [Hf|(k & Hk & Hlk & Heq)]; [by left|].
    right. apply expired_ids in Hk as (d & Hd & Hle).
    exists k, d. repeat split; try done; by rewrite Heq.
Qed.

(** ** [Close] *)

Lemma Close_fulfilled (st : Impl) :
  fulfilled (Close st)
  = fulfilled st ++ map closed_fulfilment (map_to_list (pendingRequests st)).
Proof.
  unfold Close.
  change (fulfilled (emit NotifyTimeoutAll ?x)) with (fulfilled x).
  destruct (failPending_fields
              (signalWakeup (emit NotifyTimeoutAll (set_connected false st))))
    as (_ & _ & _ & -> & _).
  unfold signalWakeup. simpl. by destruct (wakeValid st).
Qed.

Lemma Close_connected (st : Impl) : connected (Close st) = false.
Proof.
  unfold Close, failPending.
  change (connected (emit NotifyTimeoutAll ?x)) with (connected x).
  change (connected (set_requests ∅ ∅ ?x)) with (connected x).
  generalize (map_to_list (pendingRequests
    (signalWakeup (emit NotifyTimeoutAll (set_connected false st))))).
  assert (connected (signalWakeup (emit NotifyTimeoutAll (set_connected false st)))
          = false) as H by (unfold signalWakeup; simpl; by destruct (wakeValid st)).
  revert H. generalize (signalWakeup (emit NotifyTimeoutAll (set_connected false st))).
  intros s Hs l. revert s Hs. induction l as [|kv l IH]; intros s Hs; [done|].
  simpl. by apply IH.
Qed.

(** X11: [Close] disconnects, empties both maps and gives the promise of
    every request that was pending an InternalError "Transport closed"
    response carrying the request's key, and no other promise a value; it
    leaves the write queue alone; a second [Close] gives no promise a
    value. *)
Theorem Close_fails_every_pending_request (st : Impl) :
  connected (Close st) = false
  ∧ pendingRequests (Close st) = ∅
  ∧ requestDeadlines (Close st) = ∅
  ∧ fulfilled (Close st)
    = fulfilled st ++ map closed_fulfilment (map_to_list (pendingRequests st))
  ∧ (∀ idStr slot, pendingRequests st !! idStr = Some slot ↔
       {| ful_slot := slot; ful_cause := ByClose;
          ful_value := errorResponse idStr (lit "Transport closed") |}
       ∈ map closed_fulfilment (map_to_list (pendingRequests st)))
  ∧ qstate (Close st) = qstate st
  ∧ fulfilled (Close (Close st)) = fulfilled (Close st).
Proof.
  destruct (Close_fields st) as (Hp & Hd & _).
  split; [apply Close_connected|]. split; [done|]. split; [done|].
  split; [apply Close_fulfilled|]. split; [|split; [apply Close_qstate|]].
  - intros idStr slot. rewrite list_elem_of_fmap. split.
    + intros H. exists (idStr, slot). split; [done|]. by apply elem_of_map_to_list.
    + intros ([k v] & Heq & Hin). apply elem_of_map_to_list in Hin.
      unfold closed_fulfilment, errorResponse in Heq. simpl in Heq.
      by injection Heq as -> ->.
  - rewrite (Close_fulfilled (Close st)), Hp, map_to_list_empty. simpl.
    by rewrite app_nil_r.
Qed.


End RequestsMore.



(** ** Generated ids, the timer and notifications *)

Section FacadeMore.

Lemma to_string_inj (a b : N) :
  (a ≤ ULLONG_MAX)%N → (b ≤ ULLONG_MAX)%N → to_string a = to_string b → a = b.
Proof.
  intros Ha Hb H. apply (f_equal stoull) in H.
  rewrite !stoull_to_string in H by done. by injection H.
Qed.

(** X13: generated request ids are "req-" and the decimal form of the
    counter, so two of them are equal only when the 32-bit counters they
    come from are; in particular two ids generated one after the other
    always differ. *)
Theorem generated_ids_differ (st1 st2 : Impl) :
  ((generateRequestId st1).1 = (generateRequestId st2).1
   ↔ ((requestCounter st1 + 1) mod uint_modulus)%N
     = ((requestCounter st2 + 1) mod uint_modulus)%N)
  ∧ (generateRequestId st1).1 ≠ (generateRequestId (generateRequestId st1).2).1.
Proof.
  assert (∀ c, ((c + 1) mod uint_modulus ≤ ULLONG_MAX)%N) as Hb.
  { intros c. pose proof (N.mod_lt (c + 1) uint_modulus).
    unfold uint_modulus, ULLONG_MAX in *. lia. }
  assert (∀ s1 s2, (generateRequestId s1).1 = (generateRequestId s2).1
                   → ((requestCounter s1 + 1) mod uint_modulus)%N
                     = ((requestCounter s2 + 1) mod uint_modulus)%N) as Hinj.
  { intros s1 s2 H. unfold generateRequestId in H. cbn [fst] in H.
    apply app_inv_head in H. by apply to_string_inj. }
  split; [split|].
  - apply Hinj.
  - intros H. unfold generateRequestId. cbn [fst]. by rewrite H.
  - intros H%Hinj. unfold generateRequestId in H. simpl in H.
    pose proof (N.mod_lt (requestCounter st1 + 1) uint_modulus) as Hlt.
    set (x := ((requestCounter st1 + 1) mod uint_modulus)%N) in *.
    unfold uint_modulus in *.
    destruct (decide (x + 1 < 4294967296)%N) as [Hs|Hs].
    + rewrite (N.mod_small (x + 1)) in H by done. lia.
    + assert (x + 1 = 4294967296)%N as Hx by lia.
      rewrite Hx, N.Div0.mod_same in H. lia.
Qed.



(** X15: a notification that does not fit the write queue is not queued and
    disconnects the transport; after that every notification is dropped
    without a trace and every request is answered at once with a ready
    future. *)
Theorem SendNotification_overflow_disconnects `{codec : JSONCodec}
    (serialized : bytes) (st : Impl) :
  connected st = true →
  (queuedBytes st + size (makeFrame serialized) < size_modulus)%N →
  (writeQueueMaxBytes st < queuedBytes st + size (makeFrame serialized))%N →
  connected (SendNotification serialized st) = false
  ∧ writeQueue (SendNotification serialized st) = writeQueue st
  ∧ queuedBytes (SendNotification serialized st) = queuedBytes st
  ∧ (∀ later, SendNotification later (SendNotification serialized st)
              = SendNotification serialized st)
  ∧ (∀ request now,
       ∃ resp, (SendRequest request now (SendNotification serialized st)).1
               = FutureReady resp).
Proof.
  intros Hc Hfit Hover.
  assert (connected (SendNotification serialized st) = false) as Hd.
  { unfold SendNotification. rewrite Hc. cbn [negb].
    rewrite enqueueFrame_over by done.
    unfold signalWakeup, callErrorHandler.
    destruct (errorHandler st); simpl; by destruct (wakeValid st). }
  split; [done|]. split; [|split; [|split]].
  - unfold SendNotification. rewrite Hc. cbn [negb].
    rewrite enqueueFrame_over by done.
    unfold signalWakeup, callErrorHandler.
    destruct (errorHandler st); simpl; by destruct (wakeValid st).
  - unfold SendNotification. rewrite Hc. cbn [negb].
    rewrite enqueueFrame_over by done.
    unfold signalWakeup, callErrorHandler.
    destruct (errorHandler st); simpl; by destruct (wakeValid st).
  - intros later. unfold SendNotification at 1. by rewrite Hd.
  - intros request now. unfold SendRequest. rewrite Hd. simpl. eauto.
Qed.

End FacadeMore.

Lemma SendNotification_overflow_disconnects_witness :
  connected (SendNotification (lit "0123456789") tight) = false
  ∧ writeQueue (SendNotification (lit "0123456789") tight) = [].
Proof.
  destruct (@SendNotification_overflow_disconnects toyCodec (lit "0123456789") tight)
    as (H1 & H2 & _).
  - reflexivity.
  - vm_compute. reflexivity.
  - vm_compute. reflexivity.
  - split; [exact H1|exact H2].
Defined.

(** ** The factory and its settings *)

Section Factory.

Lemma skipSeparators_app (ws s : bytes) :
  separators ws → skipSeparators (ws ++ s) = skipSeparators s.
Proof. induction 1 as [|c ws Hc _ IH]; [done|]. simpl. by rewrite Hc. Qed.

Lemma skipSeparators_token (token rest : bytes) :
  config_token token → skipSeparators (token ++ rest) = token ++ rest.
Proof.
  intros [Hne Hall]. destruct token as [|c token]; [done|].
  inversion Hall as [|? ? Hc _]; subst. simpl. by rewrite Hc.
Qed.

Lemma takeToken_app (token rest : bytes) :
  Forall (fun c => is_separator c = false) token → stops rest →
  takeToken (token ++ rest) = (token, rest).
Proof.
  intros Hall Hrest. induction Hall as [|c token Hc _ IH].
  - destruct rest as [|c rest]; [done|]. simpl in *. by rewrite Hrest.
  - simpl. by rewrite Hc, IH.
Qed.

Lemma parseConfig_token (fuel : nat) (ws token rest : bytes) (t : StdioTransport) :
  separators ws → config_token token → stops rest →
  parseConfig (S fuel) (ws ++ token ++ rest) t
  = parseConfig fuel rest (applySetting token t).
Proof.
  intros Hws Htok Hrest. cbn [parseConfig].
  rewrite skipSeparators_app, skipSeparators_token by done.
  rewrite takeToken_app by (done || apply Htok).
  destruct Htok as [Hne _].
  destruct (ws ++ token ++ rest) as [|c l] eqn:E.
  - apply app_eq_nil in E as [_ [E _]%app_eq_nil]. done.
  - cbn [is_empty]. destruct (token ++ rest) as [|c' l'] eqn:E'; [|done].
    by apply app_eq_nil in E' as [? _].
Qed.

Lemma parseConfig_separators (fuel : nat) (ws : bytes) (t : StdioTransport) :
  separators ws → parseConfig fuel ws t = t.
Proof.
  intros Hws. destruct fuel as [|fuel]; [done|]. cbn [parseConfig].
  rewrite <- (app_nil_r ws) at 2. rewrite skipSeparators_app by done. simpl.
  by destruct ws.
Qed.

Lemma parseConfig_tokens (more : list (bytes * bytes)) (trail : bytes) (fuel : nat)
    (t : StdioTransport) :
  Forall (fun p => separators p.1 ∧ p.1 ≠ [] ∧ config_token p.2) more →
  separators trail →
  length (concat (map (fun p => p.1 ++ p.2) more) ++ trail) < fuel →
  stops (concat (map (fun p => p.1 ++ p.2) more) ++ trail)
  ∧ parseConfig fuel (concat (map (fun p => p.1 ++ p.2) more) ++ trail) t
    = foldl (fun t token => applySetting token t) t (map snd more).
Proof.
  intros Hmore Htrail. revert fuel t.
  induction Hmore as [|[ws token] more (Hws & Hne & Htok) _ IH]; intros fuel t Hlen.
  - simpl. split; [|by apply parseConfig_separators].
    destruct Htrail; [done|]. done.
  - simpl in *. split.
    + destruct Hws as [|c ws Hc _]; [done|]. exact Hc.
    + destruct fuel as [|fuel]; [lia|].
      rewrite <- !app_assoc.
      destruct (IH fuel (applySetting token t)) as [Hstop Heq].
      { rewrite !length_app in Hlen. rewrite length_app.
        destruct Htok as [Hn _]. destruct token; [done|]. simpl in Hlen. lia. }
      rewrite parseConfig_token by done. apply Heq.
Qed.

(** X16: the factory reads its config as tokens separated by runs of ';',
    space and tab, in order: the transport it returns is the new transport
    with the setting of each token applied from left to right, and a config
    of separators alone changes nothing. *)
Theorem CreateTransport_applies_tokens (wake : bool) (env lead first : bytes)
    (more : list (bytes * bytes)) (trail : bytes) :
  separators lead → config_token first →
  Forall (fun p => separators p.1 ∧ p.1 ≠ [] ∧ config_token p.2) more →
  separators trail →
  CreateTransport wake env (config_text lead first more trail)
  = foldl (fun t token => applySetting token t) (newTransport wake env)
      (first :: map snd more)
  ∧ CreateTransport wake env (lead ++ trail) = newTransport wake env.
Proof.
  intros Hlead Hfirst Hmore Htrail. split.
  - unfold CreateTransport, config_text.
    destruct (parseConfig_tokens more trail
                (length (lead ++ first ++ concat (map (fun p => p.1 ++ p.2) more) ++ trail))
                (applySetting first (newTransport wake env)) Hmore Htrail)
      as [Hstop Heq].
    { rewrite !length_app. destruct Hfirst as [Hn _].
      destruct first; [done|]. simpl. lia. }
    rewrite parseConfig_token by done. exact Heq.
  - unfold CreateTransport. apply parseConfig_separators.
    by apply Forall_app.
Qed.

Lemma applySetting_fields (token : bytes) (t : StdioTransport) :
  ∃ timeout cap idle write,
    applySetting token t
    = mkTransport (set_requestTimeout timeout (set_writeQueueMaxBytes cap (pImpl t)))
        idle write
    ∧ ((1 ≤ writeQueueMaxBytes (pImpl t))%N → (1 ≤ cap)%N).
Proof.
  assert (∃ timeout cap idle write,
    t = mkTransport (set_requestTimeout timeout (set_writeQueueMaxBytes cap (pImpl t)))
          idle write
    ∧ ((1 ≤ writeQueueMaxBytes (pImpl t))%N → (1 ≤ cap)%N)) as Hsame.
  { exists (requestTimeout (pImpl t)), (writeQueueMaxBytes (pImpl t)),
      (idleReadTimeout t), (writeTimeout t).
    split; [|done]. by destruct t as [[] ? ?]. }
  unfold applySetting.
  destruct (find token (lit "=") 0) as [eq|]; [|exact Hsame].
  destruct (bytes_eqb _ _).
  { destruct (stoull _) as [v|]; [|exact Hsame].
    eexists _, (writeQueueMaxBytes (pImpl t)), _, _. split; [|done].
    unfold SetRequestTimeoutMs. by destruct t as [[] ? ?]. }
  destruct (bytes_eqb _ _).
  { destruct (stoull _) as [v|]; [|exact Hsame].
    eexists (requestTimeout (pImpl t)), (writeQueueMaxBytes (pImpl t)), _, _.
    split; [|done]. unfold SetIdleReadTimeoutMs. by destruct t as [[] ? ?]. }
  destruct (bytes_eqb _ _).
  { destruct (stoull _) as [v|]; [|exact Hsame].
    eexists (requestTimeout (pImpl t)), (writeQueueMaxBytes (pImpl t)), _, _.
    split; [|done]. unfold SetWriteTimeoutMs. by destruct t as [[] ? ?]. }
  destruct (bytes_eqb _ _); [|exact Hsame].
  destruct (stoull _) as [v|]; [|exact Hsame].
  eexists (requestTimeout (pImpl t)), (if (v =? 0)%N then 1%N else v), _, _.
  split.
  - unfold SetWriteQueueMaxBytes. by destruct t as [[] ? ?].
  - intros _. destruct (N.eqb_spec v 0); lia.
Qed.

Lemma parseConfig_fields (fuel : nat) (config : bytes) (t : StdioTransport) :
  ∃ timeout cap idle write,
    parseConfig fuel config t
    = mkTransport (set_requestTimeout timeout (set_writeQueueMaxBytes cap (pImpl t)))
        idle write
    ∧ ((1 ≤ writeQueueMaxBytes (pImpl t))%N → (1 ≤ cap)%N).
Proof.
  assert (∃ timeout cap idle write,
    t = mkTransport (set_requestTimeout timeout (set_writeQueueMaxBytes cap (pImpl t)))
          idle write
    ∧ ((1 ≤ writeQueueMaxBytes (pImpl t))%N → (1 ≤ cap)%N)) as Hsame.
  { exists (requestTimeout (pImpl t)), (writeQueueMaxBytes (pImpl t)),
      (idleReadTimeout t), (writeTimeout t).
    split; [|done]. by destruct t as [[] ? ?]. }
  revert config t Hsame. induction fuel as [|fuel IH]; intros config t Hsame; [done|].
  cbn [parseConfig].
  destruct (is_empty config); [done|].
  destruct (is_empty (skipSeparators config)); [done|].
  destruct (takeToken (skipSeparators config)) as [token rest].
  destruct (applySetting_fields token t) as (timeout & cap & idle & write & Heq & Hcap).
  destruct (IH rest (applySetting token t)) as (timeout' & cap' & idle' & write' & Heq' & Hcap').
  { exists (requestTimeout (pImpl (applySetting token t))),
      (writeQueueMaxBytes (pImpl (applySetting token t))),
      (idleReadTimeout (applySetting token t)), (writeTimeout (applySetting token t)).
    split; [|done]. by destruct (applySetting token t) as [[] ? ?]. }
  exists timeout', cap', idle', write'. split.
  - rewrite Heq'. rewrite Heq. reflexivity.
  - intros H. apply Hcap'. rewrite Heq. simpl. by apply Hcap.
Qed.

(** X17: whatever the config holds, the factory returns a transport that is
    not connected, has an empty write queue and no pending request, and
    whose write queue limit is at least one byte: a config changes the
    request timeout, the queue limit and the two loop timeouts, and nothing
    else. *)
Theorem CreateTransport_changes_settings_only (wake : bool) (env config : bytes) :
  (∃ timeout cap,
     pImpl (CreateTransport wake env config)
     = set_requestTimeout timeout (set_writeQueueMaxBytes cap (newImpl wake env)))
  ∧ (1 ≤ writeQueueMaxBytes (pImpl (CreateTransport wake env config)))%N
  ∧ connected (pImpl (CreateTransport wake env config)) = false
  ∧ writeQueue (pImpl (CreateTransport wake env config)) = []
  ∧ queuedBytes (pImpl (CreateTransport wake env config)) = 0%N
  ∧ pendingRequests (pImpl (CreateTransport wake env config)) = ∅.
Proof.
  unfold CreateTransport.
  destruct (parseConfig_fields (S (length config)) config (newTransport wake env))
    as (timeout & cap & idle & write & Heq & Hcap).
  rewrite Heq. cbn [pImpl newTransport].
  split; [by exists timeout, cap|].
  split; [|done]. simpl. apply Hcap. simpl. lia.
Qed.

Lemma bytes_eqb_eq (a b : bytes) : bytes_eqb a b = true → a = b.
Proof.
  revert b. induction a as [|x a IH]; intros [|y b] H; try done.
  simpl in H. apply andb_true_iff in H as [Hxy H].
  apply Ascii.eqb_eq in Hxy as ->. f_equal. by apply IH.
Qed.

(** X18: a token changes the transport only if it reads key=value with one
    of the four keys, spelled exactly, in front of its first '=' and a value
    that [std::stoull] accepts. *)
Theorem applySetting_changes_only_known_keys (token : bytes) (t : StdioTransport) :
  applySetting token t ≠ t →
  ∃ key val v,
    token = key ++ lit "=" ++ val
    ∧ key ∈ [lit "timeout_ms"; lit "idle_read_timeout_ms"; lit "write_timeout_ms";
             lit "write_queue_max_bytes"]
    ∧ stoull val = Some v.
Proof.
  unfold applySetting. intros Hne.
  destruct (find token (lit "=") 0) as [eq|] eqn:Hfind; [|done].
  rewrite find_zero in Hfind.
  apply find_at_sound in Hfind as (pre & post & -> & ->).
  cbv zeta in Hne. change (0 + length pre) with (length pre) in Hne.
  assert (substr (pre ++ lit "=" ++ post) 0 (length pre) = pre) as Hkey.
  { unfold substr. by rewrite drop_0, take_app_length. }
  assert (drop (length pre + 1) (pre ++ lit "=" ++ post) = post) as Hval.
  { rewrite app_assoc.
    replace (length pre + 1) with (length (pre ++ lit "=")).
    - by rewrite drop_app_length.
    - by rewrite length_app. }
  rewrite Hkey, Hval in Hne.
  exists pre, post.
  destruct (bytes_eqb pre (lit "timeout_ms")) eqn:E1.
  { apply bytes_eqb_eq in E1 as ->. destruct (stoull post) as [v|]; [|done].
    exists v. split; [done|]. split; [|done]. set_solver. }
  destruct (bytes_eqb pre (lit "idle_read_timeout_ms")) eqn:E2.
  { apply bytes_eqb_eq in E2 as ->. destruct (stoull post) as [v|]; [|done].
    exists v. split; [done|]. split; [|done]. set_solver. }
  destruct (bytes_eqb pre (lit "write_timeout_ms")) eqn:E3.
  { apply bytes_eqb_eq in E3 as ->. destruct (stoull post) as [v|]; [|done].
    exists v. split; [done|]. split; [|done]. set_solver. }
  destruct (bytes_eqb pre (lit "write_queue_max_bytes")) eqn:E4; [|done].
  apply bytes_eqb_eq in E4 as ->. destruct (stoull post) as [v|]; [|done].
  exists v. split; [done|]. split; [|done]. set_solver.
Qed.

Lemma milliseconds_small (n : N) : (n < 9223372036854775808)%N → milliseconds n = Z.of_N n.
Proof.
  intros H. unfold milliseconds.
  destruct (Z.ltb_spec (Z.of_N n) 9223372036854775808); [done|lia].
Qed.

Lemma applySetting_key (key val : bytes) (t : StdioTransport) :
  Forall (fun x => x ≠ "="%char) key →
  applySetting (key ++ lit "=" ++ val) t
  = if bytes_eqb key (lit "timeout_ms") then
      match stoull val with Some v => SetRequestTimeoutMs v t | None => t end
    else if bytes_eqb key (lit "idle_read_timeout_ms") then
      match stoull val with Some v => SetIdleReadTimeoutMs v t | None => t end
    else if bytes_eqb key (lit "write_timeout_ms") then
      match stoull val with Some v => SetWriteTimeoutMs v t | None => t end
    else if bytes_eqb key (lit "write_queue_max_bytes") then
      match stoull val with Some v => SetWriteQueueMaxBytes v t | None => t end
    else t.
Proof.
  intros Hkey. unfold applySetting.
  rewrite find_zero. change (lit "=") with ["="%char].
  rewrite find_at_skip by done. rewrite find_at_here.
  change (0 + length key) with (length key).
  unfold substr. rewrite drop_0, take_app_length.
  replace (drop (length key + 1) (key ++ ["="%char] ++ val)) with val; [done|].
  rewrite app_assoc. replace (length key + 1) with (length (key ++ ["="%char])).
  - by rewrite drop_app_length.
  - by rewrite length_app.
Qed.

Ltac no_equals_sign :=
  repeat (apply Forall_cons; split; [discriminate|]); apply Forall_nil_2.

(** X19: a value written by [std::to_string] is read back by each of the
    four settings: "timeout_ms" sets the request timeout and takes 0 as no
    timeout, the two loop timeouts take the value as it is, and
    "write_queue_max_bytes" takes 0 as one byte. *)
Theorem applySetting_reads_back (n : N) (t : StdioTransport) :
  (n < 9223372036854775808)%N →
  requestTimeout (pImpl (applySetting (lit "timeout_ms=" ++ to_string n) t))
  = (if (n =? 0)%N then MS_MAX else Z.of_N n)
  ∧ idleReadTimeout (applySetting (lit "idle_read_timeout_ms=" ++ to_string n) t)
    = Z.of_N n
  ∧ writeTimeout (applySetting (lit "write_timeout_ms=" ++ to_string n) t) = Z.of_N n
  ∧ writeQueueMaxBytes
      (pImpl (applySetting (lit "write_queue_max_bytes=" ++ to_string n) t))
    = N.max 1 n.
Proof.
  intros Hn.
  assert (stoull (to_string n) = Some n) as Hs.
  { apply stoull_to_string. unfold ULLONG_MAX. lia. }
  pose proof (milliseconds_small n Hn) as Hms.
  generalize dependent (to_string n). intros val Hs.
  split; [|split; [|split]].
  - change (lit "timeout_ms=" ++ val) with (lit "timeout_ms" ++ lit "=" ++ val).
    rewrite applySetting_key by no_equals_sign.
    change (bytes_eqb (lit "timeout_ms") (lit "timeout_ms")) with true.
    cbv iota. rewrite Hs. simpl. by rewrite Hms.
  - change (lit "idle_read_timeout_ms=" ++ val)
      with (lit "idle_read_timeout_ms" ++ lit "=" ++ val).
    rewrite applySetting_key by no_equals_sign.
    change (bytes_eqb (lit "idle_read_timeout_ms") (lit "timeout_ms")) with false.
    change (bytes_eqb (lit "idle_read_timeout_ms") (lit "idle_read_timeout_ms")) with true.
    cbv iota. rewrite Hs. simpl. rewrite Hms.
    destruct (N.eqb_spec n 0); [lia|done].
  - change (lit "write_timeout_ms=" ++ val) with (lit "write_timeout_ms" ++ lit "=" ++ val).
    rewrite applySetting_key by no_equals_sign.
    change (bytes_eqb (lit "write_timeout_ms") (lit "timeout_ms")) with false.
    change (bytes_eqb (lit "write_timeout_ms") (lit "idle_read_timeout_ms")) with false.
    change (bytes_eqb (lit "write_timeout_ms") (lit "write_timeout_ms")) with true.
    cbv iota. rewrite Hs. simpl. rewrite Hms.
    destruct (N.eqb_spec n 0); [lia|done].
  - change (lit "write_queue_max_bytes=" ++ val)
      with (lit "write_queue_max_bytes" ++ lit "=" ++ val).
    rewrite applySetting_key by no_equals_sign.
    change (bytes_eqb (lit "write_queue_max_bytes") (lit "timeout_ms")) with false.
    change (bytes_eqb (lit "write_queue_max_bytes") (lit "idle_read_timeout_ms")) with false.
    change (bytes_eqb (lit "write_queue_max_bytes") (lit "write_timeout_ms")) with false.
    change (bytes_eqb (lit "write_queue_max_bytes") (lit "write_queue_max_bytes")) with true.
    cbv iota. rewrite Hs. simpl.
    destruct (N.eqb_spec n 0); lia.
Qed.

Lemma digit_char_not_separator (d : N) :
  (d < 10)%N → is_separator (digit_char d) = false.
Proof.
  intros H.
  destruct (digit_cases _ H) as [->|[->|[->|[->|[->|[->|[->|[->|[->| ->]]]]]]]]];
    reflexivity.
Qed.

Lemma setting_is_token (key : bytes) (n : N) :
  Forall (fun c => is_separator c = false) key →
  config_token (key ++ lit "=" ++ to_string n).
Proof.
  intros Hkey. split.
  - intros [_ H]%app_eq_nil. discriminate.
  - apply Forall_app. split; [done|]. apply Forall_cons. split; [done|].
    eapply Forall_impl; [apply to_string_digits|].
    intros c (d & Hd & ->). by apply digit_char_not_separator.
Qed.

(** X20: the environment variable sets the request timeout as it is
    written, 0 included, and a value that [std::stoull] rejects leaves the
    default of 30 s; a "timeout_ms" in the config is applied afterwards and
    wins, with 0 standing for no timeout. *)
Theorem environment_timeout_and_config (wake : bool) (n : N) :
  (n < 9223372036854775808)%N →
  requestTimeout (newImpl wake (to_string n)) = Z.of_N n
  ∧ (∀ env, stoull env = None → requestTimeout (newImpl wake env) = 30000%Z)
  ∧ (∀ env,
       requestTimeout
         (pImpl (CreateTransport wake env (lit "timeout_ms=" ++ to_string n)))
       = if (n =? 0)%N then MS_MAX else Z.of_N n).
Proof.
  intros Hn.
  assert (stoull (to_string n) = Some n) as Hs.
  { apply stoull_to_string. unfold ULLONG_MAX. lia. }
  pose proof (milliseconds_small n Hn) as Hms.
  split; [|split].
  - unfold newImpl. cbn [requestTimeout]. rewrite Hs.
    pose proof (digits_nonempty 19 n) as Hne. fold (to_string n) in Hne.
    destruct (to_string n); [done|]. by cbn [is_empty negb].
  - intros env Henv. unfold newImpl. cbn [requestTimeout]. rewrite Henv.
    by destruct (negb (is_empty env)).
  - intros env. unfold CreateTransport.
    pose proof (setting_is_token (lit "timeout_ms") n) as Htok.
    change (lit "timeout_ms" ++ lit "=" ++ to_string n)
      with (lit "timeout_ms=" ++ to_string n) in Htok.
    rewrite <- (app_nil_r (lit "timeout_ms=" ++ to_string n)) at 2.
    change ((lit "timeout_ms=" ++ to_string n) ++ [])
      with ([] ++ (lit "timeout_ms=" ++ to_string n) ++ []).
    rewrite parseConfig_token; [|apply Forall_nil_2| |exact I].
    2:{ apply Htok. repeat (apply Forall_cons; split; [reflexivity|]). apply Forall_nil_2. }
    rewrite parseConfig_separators by apply Forall_nil_2.
    change (lit "timeout_ms=" ++ to_string n)
      with (lit "timeout_ms" ++ lit "=" ++ to_string n).
    rewrite applySetting_key by no_equals_sign.
    change (bytes_eqb (lit "timeout_ms") (lit "timeout_ms")) with true.
    cbv iota. rewrite Hs. simpl. by rewrite Hms.
Qed.

End Factory.

Lemma CreateTransport_applies_tokens_witness :
  CreateTransport true [] (lit " timeout_ms=5; write_queue_max_bytes=0;")
  = SetWriteQueueMaxBytes 0 (SetRequestTimeoutMs 5 (newTransport true [])).
Proof.
  destruct (CreateTransport_applies_tokens true [] (lit " ") (lit "timeout_ms=5")
              [(lit "; ", lit "write_queue_max_bytes=0")] (lit ";")) as [H _].
  - repeat constructor.
  - split; [discriminate|]. repeat constructor.
  - constructor; [|constructor]. split; [repeat constructor|].
    split; [discriminate|]. split; [discriminate|]. repeat constructor.
  - repeat constructor.
  - exact H.
Defined.

Lemma applySetting_changes_only_known_keys_witness :
  ∃ key val v,
    lit "write_queue_max_bytes=64" = key ++ lit "=" ++ val
    ∧ key ∈ [lit "timeout_ms"; lit "idle_read_timeout_ms"; lit "write_timeout_ms";
             lit "write_queue_max_bytes"]
    ∧ stoull val = Some v.
Proof.
  apply (applySetting_changes_only_known_keys (lit "write_queue_max_bytes=64")
           (newTransport true [])).
  vm_compute. discriminate.
Defined.

Lemma applySetting_reads_back_witness :
  requestTimeout (pImpl (applySetting (lit "timeout_ms=" ++ to_string 0)
                           (newTransport true [])))
  = MS_MAX
  ∧ writeQueueMaxBytes
      (pImpl (applySetting (lit "write_queue_max_bytes=" ++ to_string 0)
                (newTransport true [])))
    = 1%N.
Proof.
  destruct (applySetting_reads_back 0 (newTransport true [])) as (H1 & _ & _ & H4).
  - lia.
  - split; [exact H1|exact H4].
Defined.

Lemma environment_timeout_and_config_witness :
  requestTimeout (newImpl true (lit "250")) = 250%Z
  ∧ requestTimeout (pImpl (CreateTransport true (lit "250") (lit "timeout_ms=0")))
    = MS_MAX.
Proof.
  destruct (environment_timeout_and_config true 0) as (_ & _ & H3); [lia|].
  destruct (environment_timeout_and_config true 250) as (H1 & _ & _); [lia|].
  split; [exact H1|exact (H3 (lit "250"))].
Defined.

(** ** A response that comes too late *)

Section LateResponse.

Context `{codec : JSONCodec}.

(** X21: once the expiry sweep has answered a request, a response for it
    that arrives afterwards is dropped without a trace: the promise keeps
    the "Request timeout" value and no handler is called. *)
Theorem response_after_timeout_is_dropped (st : Impl) (now d : Z)
    (message : bytes) (response : JSONRPCResponse) :
  connected st = true →
  requestDeadlines st !! idKey (resp_id response) = Some d → (d ≤ now)%Z →
  DeserializeRequest message = None →
  DeserializeResponse message = Some response →
  processMessage message (timeoutRound now st) = timeoutRound now st.
Proof.
  intros Hc Hd Hle Hreq Hresp.
  unfold timeoutRound. rewrite Hc. unfold consumeExpired.
  set (ids := map fst (List.filter _ _)).
  destruct (foldl_expireOne_lookup ids st (idKey (resp_id response))) as [Hin _].
  destruct Hin as [Hp Hdl].
  { apply expired_ids. by exists d. }
  revert Hp Hdl. generalize (foldl expireOne st ids). intros st' Hp Hdl.
  unfold processMessage. rewrite Hreq, Hresp.
  assert (handleResponse response st' = st') as Hsame.
  { unfold handleResponse. rewrite Hp. cbv zeta.
    rewrite delete_id by done. by destruct st'. }
  by destruct (contains _ _ && contains _ _).
Qed.

End LateResponse.

Lemma response_after_timeout_is_dropped_witness :
  @processMessage toyCodec (lit "R7")
    (timeoutRound 30000 (@SendRequest toyCodec request_7 0 fresh).2)
  = timeoutRound 30000 (@SendRequest toyCodec request_7 0 fresh).2.
Proof.
  apply (@response_after_timeout_is_dropped toyCodec
           (@SendRequest toyCodec request_7 0 fresh).2 30000 30000 (lit "R7")
           {| resp_id := IdString (lit "7"); resp_result := Some [];
              resp_error := None |}).
  - reflexivity.
  - vm_compute. reflexivity.
  - lia.
  - reflexivity.
  - reflexivity.
Defined.
